(** * meta-filter: composable predicate filters over a card collection

    A shallow embedding of [metafilter.h] and [main.cpp].

    - [float] values are IEEE-754 binary32 numbers, represented with the
      Standard Library's [spec_float] at precision 24 and [emax] 128; the
      comparisons are the IEEE ones (every comparison with a NaN is false).
    - [int] values are integers; the program only stores, compares and prints
      them, so no arithmetic can wrap.
    - [Card*] values are addresses into a heap of cards (non-null pointers:
      the program makes no null one), a [CardList]
      ([std::vector<Card*>]) is the sequence of its elements, and vector
      objects live in a store indexed by location, so that two references may
      name the same vector.
    - every call of an [evaluate] member function is recorded in a trace. *)

From Stdlib Require Import ZArith List String Ascii Bool Lia SpecFloat DecimalString.
From stdpp Require Import gmap strings list.

Open Scope Z_scope.

(** ** float *)

Module Float.

Definition float := spec_float.

Definition prec : Z := 24.
Definition emax : Z := 128.

(** A well-formed binary32 value. *)
Definition valid (x : float) : bool := valid_binary prec emax x.

Definition is_finite (x : float) : bool :=
  match x with
  | S754_zero _ | S754_finite _ _ _ => true
  | _ => false
  end.

(** The literal whose value is [m * 2^e], rounded to binary32. *)
Definition lit (m e : Z) : float := binary_normalize prec emax m e false.

(** [std::numeric_limits<float>::max()] *)
Definition max : float := SFmax_float prec emax.

(** [0.f] *)
Definition zero : float := S754_zero false.

(** [a < b], [a > b] and [a == b] on floats. *)
Definition lt (a b : float) : bool := SFltb a b.
Definition gt (a b : float) : bool := SFltb b a.
Definition eq (a b : float) : bool := SFeqb a b.
Definition le (a b : float) : bool := SFleb a b.

(** The exact value of a float, as a fraction [(n, d)] with [0 < d];
    [None] for infinities and NaN. *)
Definition to_frac (x : float) : option (Z * Z) :=
  match x with
  | S754_zero _ => Some (0, 1)
  | S754_finite s m e =>
      let n := if s then Z.neg m else Z.pos m in
      if 0 <=? e then Some (n * 2 ^ e, 1) else Some (n, 2 ^ (- e))
  | _ => None
  end.

End Float.

Abbreviation float := Float.float.

(** ** Text and output streams *)

Module Text.

Definition NUL : ascii := Ascii.zero.

(** The characters of a C string: those before the first NUL. *)
Fixpoint c_chars (s : string) : string :=
  match s with
  | EmptyString => EmptyString
  | String c s' => if Ascii.eqb c NUL then EmptyString else String c (c_chars s')
  end.

Fixpoint nul_free (s : string) : bool :=
  match s with
  | EmptyString => true
  | String c s' => negb (Ascii.eqb c NUL) && nul_free s'
  end.

(** [int] in decimal, as an output stream in its initial state writes it. *)
Definition of_int (z : Z) : string := NilZero.string_of_int (Z.to_int z).

(** *** [float] in the general format with precision 6

    An output stream in its initial state ([floatfield] unset, precision 6)
    writes a floating-point number as [printf]'s [%g] does. *)

Definition precision : Z := 6.

(** Is [10^x <= n/d] ? ([0 < d]) *)
Definition pow10_le (x n d : Z) : bool :=
  if 0 <=? x then 10 ^ x * d <=? n else d <=? n * 10 ^ (- x).

(** The largest [x] with [10^x <= n/d], searched upwards from [x]. *)
Fixpoint dec_exponent (fuel : nat) (x n d : Z) : Z :=
  match fuel with
  | O => x
  | S fuel' => if pow10_le (x + 1) n d then dec_exponent fuel' (x + 1) n d else x
  end.

(** [n/d] rounded to the nearest integer, ties to even. *)
Definition round_half_even (n d : Z) : Z :=
  let q := n / d in
  let r := n mod d in
  match 2 * r ?= d with
  | Lt => q
  | Gt => q + 1
  | Eq => if Z.even q then q else q + 1
  end.

(** The [precision] significant digits of [n/d] and its decimal exponent. *)
Definition sig_digits (n d : Z) : Z * Z :=
  let x := dec_exponent 100 (-46) n d in
  let k := x - (precision - 1) in
  let m := if 0 <=? k then round_half_even n (d * 10 ^ k)
           else round_half_even (n * 10 ^ (- k)) d in
  if 10 ^ precision <=? m then (10 ^ (precision - 1), x + 1) else (m, x).

Fixpoint strip_zeros (s : string) : string :=
  match s with
  | EmptyString => EmptyString
  | String c s' =>
      match strip_zeros s' with
      | EmptyString => if Ascii.eqb c "0" then EmptyString else String c EmptyString
      | t => String c t
      end
  end.

Fixpoint zeros (n : nat) : string :=
  match n with
  | O => EmptyString
  | S n' => String "0" (zeros n')
  end.

Definition with_fraction (int_part frac : string) : string :=
  match strip_zeros frac with
  | EmptyString => int_part
  | f => int_part +:+ "." +:+ f
  end.

Definition of_exponent (x : Z) : string :=
  let a := of_int (Z.abs x) in
  (if x <? 0 then "-" else "+") +:+ (if Z.abs x <? 10 then "0" +:+ a else a).

(** [n/d > 0] in the general format. *)
Definition of_positive (n d : Z) : string :=
  let '(m, x) := sig_digits n d in
  let ds := of_int m in
  if (-4 <=? x) && (x <? precision) then
    if 0 <=? x then
      with_fraction (substring 0 (Z.to_nat (x + 1)) ds)
                    (substring (Z.to_nat (x + 1)) (Z.to_nat (precision - 1 - x)) ds)
    else
      with_fraction "0" (zeros (Z.to_nat (- x - 1)) +:+ ds)
  else
    with_fraction (substring 0 1 ds) (substring 1 (Z.to_nat (precision - 1)) ds)
    +:+ "e" +:+ of_exponent x.

Definition of_float (x : float) : string :=
  match x with
  | S754_nan => "nan"
  | S754_infinity s => if s then "-inf" else "inf"
  | S754_zero s => if s then "-0" else "0"
  | S754_finite s m e =>
      (if s then "-" else "") +:+
      (if 0 <=? e then of_positive (Z.pos m * 2 ^ e) 1
       else of_positive (Z.pos m) (2 ^ (- e)))
  end.

End Text.

(** [std::ostream]: the characters written so far. *)
Definition ostream := string.

(** The [operator<<] overloads the program uses. *)
Definition put_chars (os : ostream) (s : string) : ostream := os +:+ Text.c_chars s.
Definition put_int (os : ostream) (z : Z) : ostream := os +:+ Text.of_int z.
Definition put_float (os : ostream) (x : float) : ostream := os +:+ Text.of_float x.
Definition endl (os : ostream) : ostream := os +:+ String "010" EmptyString.

(** ** Card *)

Record Card := Build_Card
  { m_name : string;
    m_cost : float;
    m_id : Z;
    m_version : Z;
    m_leader_id : Z }.

(** [Card( int id, char const* name, float cost, int version, int leader_id )];
    [m_name] is initialised from the C string [name]. *)
Definition Card_ctor (id : Z) (name : string) (cost : float) (version leader_id : Z) : Card :=
  {| m_name := Text.c_chars name;
     m_cost := cost;
     m_id := id;
     m_version := version;
     m_leader_id := leader_id |}.

(** [operator<<( std::ostream& os, Card const& card )] *)
Definition put_Card (os : ostream) (card : Card) : ostream :=
  put_chars
    (put_int
       (put_chars
          (put_int
             (put_chars
                (put_float
                   (put_chars
                      (put_chars
                         (put_chars
                            (put_int (put_chars os "[") (m_id card))
                            "] ")
                         (m_name card))
                      " (")
                   (m_cost card))
                ") [")
             (m_version card))
          ", ")
       (m_leader_id card))
    "]".

(** ** Addresses and the call trace *)

(** The address of a [Card] object ([Card*]). *)
Abbreviation ptr := nat (only parsing).

(** The location of a [CardList] object. *)
Abbreviation loc := nat (only parsing).

(** [typedef std::vector<Card*> CardList;] *)
Abbreviation CardList := (list nat) (only parsing).

(** The calls of [evaluate] member functions the program makes. *)
Inductive call :=
  | call_filter (card : ptr)  (** [get_cards] calls [filter.evaluate( *card )] *)
  | call_base (k : nat).      (** [MetaFilter::evaluate] calls the [evaluate] of its [k]-th base *)

#[global] Instance call_eq_dec : EqDecision call.
Proof. solve_decision. Defined.

(** A computation that returns a value and records calls. *)
Definition Log (A : Type) : Type := A * list call.

Definition value {A} (x : Log A) : A := fst x.
Definition trace {A} (x : Log A) : list call := snd x.

#[global] Instance Log_ret : MRet Log := fun A a => (a, []).
#[global] Instance Log_bind : MBind Log :=
  fun A B f x => (value (f (value x)), trace x ++ trace (f (value x))).

Definition tell (c : call) : Log unit := (tt, [c]).

(** The call [c], recorded, then run. *)
Definition calling {A} (c : call) (run : Log A) : Log A := tell c ;; run.

(** ** Filters *)

(** What the templates require of a filter type: [bool evaluate( Card const& )]. *)
Class Filter (F : Type) := evaluate : F -> Card -> Log bool.

(** A default constructor. *)
Class Default (F : Type) := ctor : F.

Inductive EmptyFilter := Build_EmptyFilter.

#[global] Instance EmptyFilter_ctor : Default EmptyFilter := Build_EmptyFilter.

#[global] Instance EmptyFilter_evaluate : Filter EmptyFilter :=
  fun _ card => mret true.

Record CostFilter := Build_CostFilter
  { m_max_cost : float;
    m_min_cost : float }.

#[global] Instance CostFilter_ctor : Default CostFilter :=
  {| m_max_cost := Float.max; m_min_cost := Float.zero |}.

Definition max_cost (value : float) (this : CostFilter) : CostFilter :=
  {| m_max_cost := value; m_min_cost := m_min_cost this |}.

Definition min_cost (value : float) (this : CostFilter) : CostFilter :=
  {| m_max_cost := m_max_cost this; m_min_cost := value |}.

#[global] Instance CostFilter_evaluate : Filter CostFilter :=
  fun this card =>
    mret (Float.gt (m_cost card) (m_min_cost this) && Float.lt (m_cost card) (m_max_cost this)).

Record VersionFilter := Build_VersionFilter
  { m_versions : list Z }.

#[global] Instance VersionFilter_ctor : Default VersionFilter :=
  {| m_versions := [] |}.

(** [VersionFilter(std::initializer_list<int> init_list)] *)
Definition VersionFilter_init (init_list : list Z) : VersionFilter :=
  {| m_versions := init_list |}.

Definition add_version (version : Z) (this : VersionFilter) : VersionFilter :=
  {| m_versions := m_versions this ++ [version] |}.

(** [std::find( first, last, v )] over a vector: the index of the first
    element equal to [v], or the length (the [end()] iterator). *)
Fixpoint std_find (l : list Z) (v : Z) : nat :=
  match l with
  | [] => O
  | x :: l' => if x =? v then O else S (std_find l' v)
  end.

#[global] Instance VersionFilter_evaluate : Filter VersionFilter :=
  fun this card =>
    mret (negb (std_find (m_versions this) (m_version card) =? length (m_versions this))%nat).

(** ** MetaFilter *)

(** The base-class subobjects for the pack [MoreFilters...]. *)
Fixpoint bases (MoreFilters : list Type) : Type :=
  match MoreFilters with
  | [] => unit
  | M :: Ms => (M * bases Ms)%type
  end.

(** Every type of the pack is a filter type. *)
Inductive Filters : list Type -> Type :=
  | Filters_nil : Filters []
  | Filters_cons {M Ms} : Filter M -> Filters Ms -> Filters (M :: Ms).

Existing Class Filters.
#[global] Existing Instances Filters_nil Filters_cons.

(** Every type of the pack has a default constructor. *)
Inductive Defaults : list Type -> Type :=
  | Defaults_nil : Defaults []
  | Defaults_cons {M Ms} : Default M -> Defaults Ms -> Defaults (M :: Ms).

Existing Class Defaults.
#[global] Existing Instances Defaults_nil Defaults_cons.

(** [struct MetaFilter : public Filter, public MoreFilters...] *)
Record MetaFilter (F : Type) (MoreFilters : list Type) := Build_MetaFilter
  { base : F;
    more : bases MoreFilters }.

Arguments Build_MetaFilter {F MoreFilters} _ _.
Arguments base {F MoreFilters} _.
Arguments more {F MoreFilters} _.

(** [MetaFilter<Args...>], with the default template argument
    [Filter = EmptyFilter]. *)
Definition MetaFilter_of (args : list Type) : Type :=
  match args with
  | [] => MetaFilter EmptyFilter []
  | F :: MoreFilters => MetaFilter F MoreFilters
  end.

Fixpoint bases_ctor {Ms} (ds : Defaults Ms) : bases Ms :=
  match ds in Defaults Ms return bases Ms with
  | Defaults_nil => tt
  | Defaults_cons d ds' => (d, bases_ctor ds')
  end.

#[global] Instance MetaFilter_ctor {F Ms} `{Default F} `{ds : Defaults Ms} :
  Default (MetaFilter F Ms) :=
  {| base := ctor; more := bases_ctor ds |}.

(** The pack expansion
    [{ ( ret = ret && MoreFilters::evaluate( card ), 0 )... }],
    evaluated from left to right; [k] is the position of the next base. *)
Fixpoint evaluate_more {Ms} (fs : Filters Ms) (k : nat) (card : Card) (ret : bool)
  : bases Ms -> Log bool :=
  match fs in Filters Ms return bases Ms -> Log bool with
  | Filters_nil => fun _ => mret ret
  | Filters_cons f fs' => fun bs =>
      ret' ← (if ret then calling (call_base k) (evaluate (fst bs) card) else mret false);
      evaluate_more fs' (S k) card ret' (snd bs)
  end.

#[global] Instance MetaFilter_evaluate {F Ms} `{Filter F} `{fs : Filters Ms} :
  Filter (MetaFilter F Ms) :=
  fun this card =>
    ret ← calling (call_base 0) (evaluate (base this) card);
    evaluate_more fs 1 card ret (more this).

(** The [evaluate] of every base of a composer on [card], each taken on its
    own, in declaration order. *)
Fixpoint runs_more {Ms} (fs : Filters Ms) (card : Card) : bases Ms -> list (Log bool) :=
  match fs in Filters Ms return bases Ms -> list (Log bool) with
  | Filters_nil => fun _ => []
  | Filters_cons f fs' => fun bs => evaluate (fst bs) card :: runs_more fs' card (snd bs)
  end.

Definition component_runs {F Ms} `{Filter F} `{fs : Filters Ms}
  (this : MetaFilter F Ms) (card : Card) : list (Log bool) :=
  evaluate (base this) card :: runs_more fs card (more this).

(** Member functions of a base, called on the composer. *)
Definition on_base {F Ms} (f : F -> F) (this : MetaFilter F Ms) : MetaFilter F Ms :=
  {| base := f (base this); more := more this |}.

Definition on_more {F M Ms} (f : M -> M) (this : MetaFilter F (M :: Ms))
  : MetaFilter F (M :: Ms) :=
  Build_MetaFilter (MoreFilters := M :: Ms) (base this) (f (fst (more this)), snd (more this)).

(** ** Program state *)

Record state := Build_state
  { heap : gmap ptr Card;         (** the [Card] objects made by [new] *)
    vectors : gmap loc CardList;  (** the [CardList] objects *)
    cout : ostream;
    calls : list call }.

Definition initial : state :=
  {| heap := ∅; vectors := ∅; cout := ""; calls := [] |}.

Definition set_heap (h : gmap ptr Card) (s : state) : state :=
  {| heap := h; vectors := vectors s; cout := cout s; calls := calls s |}.

Definition set_vectors (v : gmap loc CardList) (s : state) : state :=
  {| heap := heap s; vectors := v; cout := cout s; calls := calls s |}.

Definition set_cout (os : ostream) (s : state) : state :=
  {| heap := heap s; vectors := vectors s; cout := os; calls := calls s |}.

Definition set_calls (l : list call) (s : state) : state :=
  {| heap := heap s; vectors := vectors s; cout := cout s; calls := l |}.

(** A computation on the program state; [None] is undefined behaviour (a
    pointer to no live [Card], a reference to no live vector). *)
Definition Exec (A : Type) : Type := state -> option (A * state).

#[global] Instance Exec_ret : MRet Exec := fun A a s => Some (a, s).
#[global] Instance Exec_bind : MBind Exec :=
  fun A B f x s =>
    match x s with
    | Some (a, s') => f a s'
    | None => None
    end.

(** [*card] *)
Definition deref (card : ptr) : Exec Card :=
  fun s => match heap s !! card with Some c => Some (c, s) | None => None end.

(** [new Card{ ... }] *)
Definition new_Card (c : Card) : Exec ptr :=
  fun s => let p := fresh (dom (heap s)) in Some (p, set_heap (<[p := c]> (heap s)) s).

(** [delete card], for a non-null [card] *)
Definition delete_Card (card : ptr) : Exec unit :=
  fun s => match heap s !! card with
           | Some _ => Some (tt, set_heap (delete card (heap s)) s)
           | None => None
           end.

(** A [CardList] variable initialised with [init]. *)
Definition new_CardList (init : CardList) : Exec loc :=
  fun s => let v := fresh (dom (vectors s)) in Some (v, set_vectors (<[v := init]> (vectors s)) s).

Definition elements (v : loc) : Exec CardList :=
  fun s => match vectors s !! v with Some l => Some (l, s) | None => None end.

Definition assign (v : loc) (l : CardList) : Exec unit :=
  fun s => match vectors s !! v with
           | Some _ => Some (tt, set_vectors (<[v := l]> (vectors s)) s)
           | None => None
           end.

(** [v.clear()] *)
Definition clear (v : loc) : Exec unit := assign v [].

(** [v.size()] *)
Definition size (v : loc) : Exec nat := l ← elements v; mret (length l).

(** [v.reserve( n )]: only the capacity changes, the elements stay. *)
Definition reserve (v : loc) (n : nat) : Exec unit := l ← elements v; assign v l.

(** [v.push_back( card )] *)
Definition push_back (v : loc) (card : ptr) : Exec unit :=
  l ← elements v; assign v (l ++ [card]).

(** Running a recording computation appends its calls to the trace. *)
Definition logged {A} (x : Log A) : Exec A :=
  fun s => Some (value x, set_calls (calls s ++ trace x) s).

Definition print (f : ostream -> ostream) : Exec unit :=
  fun s => Some (tt, set_cout (f (cout s)) s).

(** A range-based [for] over the elements [l]. *)
Fixpoint for_each {A} (l : list A) (body : A -> Exec unit) : Exec unit :=
  match l with
  | [] => mret tt
  | x :: l' => body x ;; for_each l' body
  end.

(** ** get_cards *)

(** [size_t get_cards( CardList const& cards, Filter filter, CardList& out_cards )].
    The range-based [for] takes [cards.begin()] and [cards.end()] once, after
    the [clear] and the [reserve]. *)
Definition get_cards {F} `{Filter F} (cards : loc) (filter : F) (out_cards : loc) : Exec nat :=
  clear out_cards ;;
  n ← size cards;
  reserve out_cards n ;;
  cs ← elements cards;
  for_each cs (fun card =>
    c ← deref card;
    b ← logged (calling (call_filter card) (evaluate filter c));
    if b : bool then push_back out_cards card else mret tt) ;;
  size out_cards.

(** ** main *)

(** The filter [main] builds:
    [MetaFilter<CostFilter, VersionFilter> filter;
     filter.add_version( 1 ).add_version( 3 );
     filter.max_cost( 50.f );] *)
Definition main_filter : MetaFilter CostFilter [VersionFilter : Type] :=
  let filter := ctor in
  let filter := on_more (fun v => add_version 3 (add_version 1 v)) filter in
  let filter := on_base (max_cost (Float.lit 50 0)) filter in
  filter.

(** [main] up to the call of [get_cards]: the value [get_cards] returns and
    the two vectors. *)
Definition main_get_cards : Exec (nat * loc * loc) :=
  c0 ← new_Card (Card_ctor 0 "Card1" (Float.lit 30 0) 1 0);
  c1 ← new_Card (Card_ctor 1 "Card2" (Float.lit 10 0) 1 0);
  c2 ← new_Card (Card_ctor 2 "Card3" (Float.lit 25 (-1)) 1 1);
  c3 ← new_Card (Card_ctor 3 "Card4" (Float.lit 100 0) 1 1);
  c4 ← new_Card (Card_ctor 4 "Card5" (Float.lit 45 0) 2 1);
  cards ← new_CardList [c0; c1; c2; c3; c4];
  out_cards ← new_CardList [];
  n ← get_cards cards main_filter out_cards;
  mret (n, cards, out_cards).

(** [main]; the [getchar()] only waits for a key. *)
Definition main : Exec Z :=
  r ← main_get_cards;
  let cards := snd (fst r) in
  let out_cards := snd r in
  print (fun os => endl (put_chars os "These are the filtered cards:")) ;;
  out ← elements out_cards;
  for_each out (fun card => c ← deref card; print (fun os => endl (put_Card os c))) ;;
  clear out_cards ;;
  cs ← elements cards;
  for_each cs delete_Card ;;
  clear cards ;;
  mret 0.

(** ** What the claims speak of *)

(** The calls made when the bases whose runs are [runs] are all called, one
    after the other, the first of them at position [k]. *)
Fixpoint base_calls (k : nat) (runs : list (Log bool)) : list call :=
  match runs with
  | [] => []
  | r :: rs => call_base k :: trace r ++ base_calls (S k) rs
  end.

(** The runs up to and including the first that returns [false]. *)
Fixpoint up_to_first_false (runs : list (Log bool)) : list (Log bool) :=
  match runs with
  | [] => []
  | r :: rs => r :: (if value r then up_to_first_false rs else [])
  end.

(** Does [filter] accept the card at address [p] of the heap [h]? *)
Definition passes {F} `{Filter F} (filter : F) (h : gmap ptr Card) (p : ptr) : bool :=
  match h !! p with
  | Some c => value (evaluate filter c)
  | None => false
  end.

(** The elements of [cs] that [filter] accepts, in the order of [cs]. *)
Definition matching {F} `{Filter F} (filter : F) (h : gmap ptr Card) (cs : CardList) : CardList :=
  List.filter (passes filter h) cs.

(** The calls of one pass of [get_cards] over [cs]: for each element in turn
    one call of [filter.evaluate], followed by the calls it makes itself. *)
Fixpoint pass_calls {F} `{Filter F} (filter : F) (h : gmap ptr Card) (cs : CardList) : list call :=
  match cs with
  | [] => []
  | p :: cs' =>
      call_filter p
      :: match h !! p with Some c => trace (evaluate filter c) | None => [] end
      ++ pass_calls filter h cs'
  end.

(** The rendering of a card: [[<id>] <name> (<cost>) [<version>, <leader_id>]]. *)
Definition rendering (id : string) (name : string) (cost : string) (version leader_id : string)
  : string :=
  "[" +:+ id +:+ "] " +:+ name +:+ " (" +:+ cost +:+ ") [" +:+ version +:+ ", " +:+ leader_id +:+ "]".

(** A vector filled by successive [add_version] calls. *)
Definition added (S : list Z) : VersionFilter :=
  fold_left (fun this v => add_version v this) S ctor.


(** ** Sample states *)

(** Two cards, the vector [0] holding both and the empty vector [1]. *)
Definition two_cards : state :=
  {| heap := {[ 0%nat := Card_ctor 0 "Card1" (Float.lit 30 0) 1 0;
                1%nat := Card_ctor 3 "Card4" (Float.lit 100 0) 1 1 ]};
     vectors := {[ 0%nat := [0%nat; 1%nat]; 1%nat := [] ]};
     cout := "";
     calls := [] |}.

(** One card and the vector [0] holding it. *)
Definition one_card : state :=
  {| heap := {[ 0%nat := Card_ctor 0 "Card1" (Float.lit 30 0) 1 0 ]};
     vectors := {[ 0%nat := [0%nat] ]};
     cout := "";
     calls := [] |}.

(** ** Chains of builder calls *)

(** A call of one of the two builder functions of [CostFilter]. *)
Inductive cost_call :=
  | call_max_cost (value : float)
  | call_min_cost (value : float).

Definition do_cost_call (this : CostFilter) (c : cost_call) : CostFilter :=
  match c with
  | call_max_cost v => max_cost v this
  | call_min_cost v => min_cost v this
  end.

(** [this.c1( v1 ).c2( v2 )...]: every builder returns [*this]. *)
Definition cost_chain (cs : list cost_call) (this : CostFilter) : CostFilter :=
  fold_left do_cost_call cs this.

(** The values the [max_cost] calls, and the [min_cost] calls, of a chain pass. *)
Definition max_values (cs : list cost_call) : list float :=
  flat_map (fun c => match c with call_max_cost v => [v] | call_min_cost _ => [] end) cs.

Definition min_values (cs : list cost_call) : list float :=
  flat_map (fun c => match c with call_min_cost v => [v] | call_max_cost _ => [] end) cs.

Definition is_nan (x : float) : bool :=
  match x with
  | S754_nan => true
  | _ => false
  end.

(** The lines [main] prints for the cards at the addresses [out]: for each
    card what [operator<<] writes for it, and a line end. *)
Fixpoint card_lines (h : gmap ptr Card) (out : CardList) : string :=
  match out with
  | [] => ""
  | p :: out' =>
      match h !! p with
      | Some c => endl (put_Card "" c)
      | None => ""
      end +:+ card_lines h out'
  end.

(** ** Exact values *)

(** The exact value of a finite binary32 number in units of [2^-149], the
    smallest positive [float]: an integer. *)
Definition scaled (x : float) : Z :=
  match x with
  | S754_finite s m e => (if s then Z.neg m else Z.pos m) * 2 ^ (e + 149)
  | _ => 0
  end.

(** ** Recording computations *)

Section log.

Context {A B : Type}.

Lemma value_ret (a : A) : value (mret a : Log A) = a.
Proof. reflexivity. Qed.

Lemma trace_ret (a : A) : trace (mret a : Log A) = [].
Proof. reflexivity. Qed.

Lemma value_bind (x : Log A) (f : A -> Log B) : value (x ≫= f) = value (f (value x)).
Proof. reflexivity. Qed.

Lemma trace_bind (x : Log A) (f : A -> Log B) :
  trace (x ≫= f) = trace x ++ trace (f (value x)).
Proof. reflexivity. Qed.

Lemma value_calling (c : call) (x : Log A) : value (calling c x) = value x.
Proof. reflexivity. Qed.

Lemma trace_calling (c : call) (x : Log A) : trace (calling c x) = c :: trace x.
Proof. reflexivity. Qed.

End log.

(** ** The composer *)

Lemma evaluate_more_value {Ms} (fs : Filters Ms) k card ret (bs : bases Ms) :
  value (evaluate_more fs k card ret bs)
  = ret && fold_right andb true (map value (runs_more fs card bs)).
Proof.
  revert k ret. induction fs as [|M Ms f fs IH]; intros k ret; simpl.
  - now destruct ret.
  - rewrite IH. now destruct ret.
Qed.

Lemma evaluate_more_false {Ms} (fs : Filters Ms) k card (bs : bases Ms) :
  trace (evaluate_more fs k card false bs) = [].
Proof.
  revert k. induction fs as [|M Ms f fs IH]; intros k; simpl.
  - reflexivity.
  - apply IH.
Qed.

Lemma evaluate_more_trace {Ms} (fs : Filters Ms) k card (bs : bases Ms) :
  trace (evaluate_more fs k card true bs)
  = base_calls k (up_to_first_false (runs_more fs card bs)).
Proof.
  revert k. induction fs as [|M Ms f fs IH]; intros k; simpl.
  - reflexivity.
  - f_equal. f_equal.
    destruct (value (evaluate (fst bs) card)).
    + apply IH.
    + apply evaluate_more_false.
Qed.

(** C1: on every record, the [evaluate] of a composer returns the logical
    AND of what the [evaluate] of each of its bases returns on that record. *)
Theorem MetaFilter_evaluate_conjunction
  {F Ms} {HF : Filter F} {fs : Filters Ms} (this : MetaFilter F Ms) (card : Card) :
  value (evaluate this card)
  = fold_right andb true (map value (component_runs this card)).
Proof.
  unfold evaluate at 1, MetaFilter_evaluate, component_runs.
  rewrite value_bind, evaluate_more_value, value_calling. reflexivity.
Qed.

(** C6, as the code has it: the composer calls the [evaluate] of its bases in
    declaration order and stops after the first that returns [false]; the
    bases behind it are not called. *)
Theorem MetaFilter_evaluate_short_circuits
  {F Ms} {HF : Filter F} {fs : Filters Ms} (this : MetaFilter F Ms) (card : Card) :
  trace (evaluate this card)
  = base_calls 0 (up_to_first_false (component_runs this card)).
Proof.
  unfold evaluate at 1, MetaFilter_evaluate, component_runs.
  rewrite trace_bind, trace_calling, value_calling. simpl. f_equal. f_equal.
  destruct (value (evaluate (base this) card)).
  - apply evaluate_more_trace.
  - apply evaluate_more_false.
Qed.

(** C6, as stated, fails: on the card of cost 100 the filter of [main] calls
    its first base, [CostFilter], which returns [false], and never calls its
    second base, [VersionFilter]. *)
Lemma MetaFilter_evaluate_skips_a_base :
  let card := Card_ctor 3 "Card4" (Float.lit 100 0) 1 1 in
  trace (evaluate main_filter card) = [call_base 0]
  /\ base_calls 0 (component_runs main_filter card) = [call_base 0; call_base 1]
  /\ trace (evaluate main_filter card) <> base_calls 0 (component_runs main_filter card).
Proof.
  vm_compute. repeat split; discriminate.
Qed.

(** ** The range filter *)

Lemma digits2_pos_bound (m : positive) : Z.pos m < 2 ^ Z.pos (digits2_pos m).
Proof.
  induction m as [m IH|m IH|]; cbn [digits2_pos];
    rewrite ?Pos2Z.inj_succ, ?Z.pow_succ_r by lia; lia.
Qed.

(** A valid finite binary32 number has a significand below [2^24] and an
    exponent between -149 and 104. *)
Lemma valid_finite_bounds (s : bool) (m : positive) (e : Z) :
  Float.valid (S754_finite s m e) = true -> Z.pos m < 2 ^ 24 /\ e <= 104 /\ -149 <= e.
Proof.
  unfold Float.valid, valid_binary, bounded, canonical_mantissa, fexp, emin,
    Float.emax, Float.prec.
  intros Hv. apply andb_true_iff in Hv as [Hc He].
  apply Z.leb_le in He. apply Z.eqb_eq in Hc.
  pose proof (digits2_pos_bound m) as Hm.
  assert (Hd : Z.pos (digits2_pos m) <= 24) by lia.
  split; [|lia].
  eapply Z.lt_le_trans; [exact Hm|]. apply Z.pow_le_mono_r; lia.
Qed.

Lemma Float_max_value : Float.max = S754_finite false 16777215 104.
Proof. vm_compute. reflexivity. Qed.

Lemma compare_cont_le (m q : positive) :
  Z.pos m <= Z.pos q ->
  match Pos.compare_cont Eq m q with Lt | Eq => true | Gt => false end = true.
Proof.
  intros Hle. change (Pos.compare_cont Eq m q) with (Pos.compare m q).
  destruct (Pos.compare_spec m q) as [H|H|H]; try reflexivity.
  apply Pos2Z.pos_lt_pos in H. lia.
Qed.

(** [std::numeric_limits<float>::max()] is the largest finite binary32 value. *)
Lemma Float_max_largest (x : float) :
  Float.valid x = true -> Float.is_finite x = true -> Float.le x Float.max = true.
Proof.
  rewrite Float_max_value.
  destruct x as [s|s| |s m e]; cbn [Float.is_finite]; try discriminate; intros Hv _.
  - reflexivity.
  - destruct (valid_finite_bounds s m e Hv) as (Hm & He & _).
    destruct s; [reflexivity|].
    unfold Float.le, SFleb, SFcompare.
    destruct (Z.compare_spec e 104) as [Heq|Hlt|Hgt]; [|reflexivity|lia].
    apply compare_cont_le. change (2 ^ 24) with 16777216 in Hm. lia.
Qed.

(** Swapping the operands of a comparison reverses its result. *)
Lemma SFcompare_swap (a b : float) :
  SFcompare b a = option_map CompOpp (SFcompare a b).
Proof.
  destruct a as [[]|[]| |[] m1 e1], b as [[]|[]| |[] m2 e2]; try reflexivity;
    cbn [SFcompare option_map]; f_equal;
    rewrite (Z.compare_antisym e1 e2); destruct (e1 ?= e2); cbn [CompOpp]; try reflexivity;
    change (Pos.compare_cont Eq m2 m1) with (Pos.compare m2 m1);
    change (Pos.compare_cont Eq m1 m2) with (Pos.compare m1 m2);
    rewrite (Pos.compare_antisym m1 m2); destruct (Pos.compare m1 m2); reflexivity.
Qed.

(** Equal floats are not ordered, in either direction. *)
Lemma Float_eq_not_lt (a b : float) :
  Float.eq a b = true -> Float.lt a b = false /\ Float.lt b a = false.
Proof.
  unfold Float.eq, Float.lt, SFeqb, SFltb. rewrite (SFcompare_swap a b).
  destruct (SFcompare a b) as [[]|]; cbn; intros H; try discriminate. now split.
Qed.

(** C3: with bounds [mn < mx], the range filter accepts a record exactly when
    [mn < cost < mx]; a cost equal to either bound is rejected; a default
    constructed filter has the bounds 0 and the largest finite [float]. *)
Theorem CostFilter_evaluate_strict_range (mn mx : float) (card : Card) :
  Float.lt mn mx = true ->
  let filter := min_cost mn (max_cost mx ctor) in
  (value (evaluate filter card) = true
   <-> Float.lt mn (m_cost card) = true /\ Float.lt (m_cost card) mx = true)
  /\ (Float.eq (m_cost card) mn = true \/ Float.eq (m_cost card) mx = true ->
      value (evaluate filter card) = false)
  /\ m_min_cost ctor = Float.zero
  /\ m_max_cost ctor = Float.max
  /\ (forall x, Float.valid x = true -> Float.is_finite x = true ->
                Float.le x Float.max = true).
Proof.
  intros _ filter.
  assert (Hev : value (evaluate filter card)
                = Float.lt mn (m_cost card) && Float.lt (m_cost card) mx) by reflexivity.
  rewrite Hev. split; [apply andb_true_iff|]. repeat split.
  - intros [H|H]; destruct (Float_eq_not_lt _ _ H) as [H1 H2].
    + now rewrite H2.
    + rewrite H1. apply andb_false_r.
  - apply Float_max_largest.
Qed.

(** The range filter of [main] at work. *)
Lemma CostFilter_evaluate_strict_range_witness :
  Float.lt Float.zero (Float.lit 50 0) = true
  /\ value (evaluate (min_cost Float.zero (max_cost (Float.lit 50 0) ctor))
              (Card_ctor 0 "Card1" (Float.lit 30 0) 1 0)) = true.
Proof.
  split; [vm_compute; reflexivity|].
  apply (CostFilter_evaluate_strict_range Float.zero (Float.lit 50 0)
           (Card_ctor 0 "Card1" (Float.lit 30 0) 1 0)); vm_compute; auto.
Defined.

(** ** The membership filter *)

Lemma std_find_le (l : list Z) (v : Z) : (std_find l v <= length l)%nat.
Proof.
  induction l as [|x l IH]; simpl; [lia|]. destruct (x =? v); lia.
Qed.

(** [std::find] returns [end()] exactly when no element equals the value. *)
Lemma std_find_end (l : list Z) (v : Z) : std_find l v = length l <-> ~ In v l.
Proof.
  induction l as [|x l IH]; simpl.
  - tauto.
  - destruct (Z.eqb_spec x v) as [->|Hne].
    + split; [discriminate|]. intros H. exfalso. apply H. now left.
    + rewrite Nat.succ_inj_wd, IH. tauto.
Qed.

Lemma VersionFilter_evaluate_In (this : VersionFilter) (card : Card) :
  value (evaluate this card) = true <-> In (m_version card) (m_versions this).
Proof.
  unfold evaluate, VersionFilter_evaluate. rewrite value_ret, negb_true_iff, Nat.eqb_neq.
  rewrite std_find_end. destruct (in_dec Z.eq_dec (m_version card) (m_versions this)); tauto.
Qed.

Lemma added_versions (S : list Z) (this : VersionFilter) :
  m_versions (fold_left (fun this v => add_version v this) S this) = m_versions this ++ S.
Proof.
  revert this. induction S as [|v S IH]; intros this; simpl.
  - now rewrite app_nil_r.
  - rewrite IH. simpl. now rewrite <- app_assoc.
Qed.

(** C4: the membership filter accepts a record exactly when the record's
    version occurs in the accepted sequence, for a sequence built by
    successive [add_version] calls as for any other; with an empty sequence it
    rejects every record. *)
Theorem VersionFilter_evaluate_membership (S : list Z) (card : Card) :
  m_versions (added S) = S
  /\ (value (evaluate (added S) card) = true <-> In (m_version card) S)
  /\ (forall this : VersionFilter,
        value (evaluate this card) = true <-> In (m_version card) (m_versions this))
  /\ value (evaluate (added []) card) = false
  /\ value (evaluate (ctor : VersionFilter) card) = false.
Proof.
  assert (HS : m_versions (added S) = S) by apply added_versions.
  repeat split; try reflexivity; try assumption.
  - intros H. apply VersionFilter_evaluate_In in H. now rewrite HS in H.
  - intros H. apply VersionFilter_evaluate_In. now rewrite HS.
  - apply VersionFilter_evaluate_In.
  - apply VersionFilter_evaluate_In.
Qed.

(** ** Rendering a card *)

Lemma append_assoc (a b c : string) : (a +:+ b) +:+ c = a +:+ (b +:+ c).
Proof.
  induction a as [|x a IH]; [reflexivity|].
  change (String x ((a +:+ b) +:+ c) = String x (a +:+ (b +:+ c))). now rewrite IH.
Qed.

Lemma c_chars_nul_free (s : string) : Text.nul_free (Text.c_chars s) = true.
Proof.
  induction s as [|c s IH]; simpl; [reflexivity|].
  destruct (Ascii.eqb c Text.NUL) eqn:E; simpl; [reflexivity|]. now rewrite E, IH.
Qed.

Lemma c_chars_id (s : string) : Text.nul_free s = true -> Text.c_chars s = s.
Proof.
  induction s as [|c s IH]; simpl; [reflexivity|].
  destruct (Ascii.eqb c Text.NUL); simpl; [discriminate|]. intros H. now rewrite IH.
Qed.

Lemma put_Card_spec (os : ostream) (card : Card) :
  Text.nul_free (m_name card) = true ->
  put_Card os card
  = os +:+ rendering (Text.of_int (m_id card)) (m_name card) (Text.of_float (m_cost card))
                     (Text.of_int (m_version card)) (Text.of_int (m_leader_id card)).
Proof.
  intros Hname. unfold put_Card, put_chars, put_int, put_float, rendering.
  rewrite (c_chars_id (m_name card)) by assumption. simpl Text.c_chars.
  rewrite !append_assoc. reflexivity.
Qed.

(** C9: a record writes as [[<id>] <name> (<cost>) [<version>, <leader_id>]],
    each attribute in the form the stream gives it; the record 2, Card3, 12.5,
    1, 1 writes as [[2] Card3 (12.5) [1, 1]]. *)
Theorem put_Card_format (os : ostream) (id : Z) (name : string) (cost : float)
  (version leader_id : Z) :
  let card := Card_ctor id name cost version leader_id in
  put_Card os card
  = os +:+ rendering (Text.of_int (m_id card)) (m_name card) (Text.of_float (m_cost card))
                     (Text.of_int (m_version card)) (Text.of_int (m_leader_id card))
  /\ put_Card "" (Card_ctor 2 "Card3" (Float.lit 25 (-1)) 1 1) = "[2] Card3 (12.5) [1, 1]".
Proof.
  split.
  - apply put_Card_spec. apply c_chars_nul_free.
  - vm_compute. reflexivity.
Qed.

(** ** Computations on the program state *)

Lemma Exec_bind_run {A B} (x : Exec A) (f : A -> Exec B) (s : state) :
  (x ≫= f) s = match x s with Some (a, s') => f a s' | None => None end.
Proof. reflexivity. Qed.

Lemma elements_run (v : nat) (s : state) (l : list nat) :
  vectors s !! v = Some l -> elements v s = Some (l, s).
Proof. unfold elements. now intros ->. Qed.

Lemma assign_run (v : nat) (l old : list nat) (s : state) :
  vectors s !! v = Some old ->
  assign v l s = Some (tt, set_vectors (<[v := l]> (vectors s)) s).
Proof. unfold assign. now intros ->. Qed.

Lemma push_back_run (v p : nat) (l : list nat) (s : state) :
  vectors s !! v = Some l ->
  push_back v p s = Some (tt, set_vectors (<[v := l ++ [p]]> (vectors s)) s).
Proof.
  intros Hv. unfold push_back. rewrite Exec_bind_run, (elements_run v s l Hv).
  now apply assign_run with l.
Qed.

Lemma size_run (v : nat) (l : list nat) (s : state) :
  vectors s !! v = Some l -> size v s = Some (length l, s).
Proof.
  intros Hv. unfold size. now rewrite Exec_bind_run, (elements_run v s l Hv).
Qed.

Lemma reserve_run (v n : nat) (l : list nat) (s : state) :
  vectors s !! v = Some l -> reserve v n s = Some (tt, s).
Proof.
  intros Hv. unfold reserve. rewrite Exec_bind_run, (elements_run v s l Hv).
  rewrite (assign_run v l l s Hv), insert_id by assumption. now destruct s.
Qed.

Lemma deref_run (p : nat) (c : Card) (s : state) :
  heap s !! p = Some c -> deref p s = Some (c, s).
Proof. unfold deref. now intros ->. Qed.

Section get_cards.

Context {F : Type} {HF : Filter F}.
Variable filter : F.

Lemma get_cards_loop (out_cards : nat) (cs : list nat) :
  forall (s : state) (acc : list nat),
    vectors s !! out_cards = Some acc ->
    (forall p, In p cs -> is_Some (heap s !! p)) ->
    for_each cs (fun card =>
      c ← deref card;
      b ← logged (calling (call_filter card) (evaluate filter c));
      if b : bool then push_back out_cards card else mret tt) s
    = Some (tt, set_calls (calls s ++ pass_calls filter (heap s) cs)
                  (set_vectors (<[out_cards := acc ++ matching filter (heap s) cs]> (vectors s)) s)).
Proof.
  induction cs as [|p cs IH]; intros s acc Hout Hlive.
  - cbn [for_each pass_calls matching List.filter].
    rewrite !app_nil_r, insert_id by assumption. now destruct s.
  - destruct (Hlive p (or_introl eq_refl)) as [c Hc].
    cbn [for_each pass_calls]. unfold matching. cbn [List.filter].
    fold (matching filter (heap s) cs). unfold passes at 1. rewrite Hc.
    rewrite Exec_bind_run, Exec_bind_run, (deref_run p c s Hc), Exec_bind_run.
    cbn [logged]. rewrite value_calling, trace_calling.
    destruct (value (evaluate filter c)) eqn:Hb.
    + rewrite (push_back_run out_cards p acc) by exact Hout.
      rewrite (IH _ (acc ++ [p])).
      * destruct s; cbn. unfold set_calls, set_vectors; cbn.
        now rewrite insert_insert_eq, <- !app_assoc.
      * cbn. apply lookup_insert_eq.
      * intros q Hq. cbn. apply Hlive. now right.
    + cbn [mret Exec_ret]. rewrite (IH _ acc).
      * destruct s; cbn. unfold set_calls, set_vectors; cbn.
        now rewrite <- !app_assoc.
      * exact Hout.
      * intros q Hq. cbn. apply Hlive. now right.
Qed.

(** What [get_cards] does, whether or not [cards] and [out_cards] are the
    same vector: the range-based loop runs over the elements [cards] has
    after [out_cards.clear()]. *)
Lemma get_cards_run (cards out_cards : nat) (s : state) (cs old : list nat) :
  vectors s !! cards = Some cs ->
  vectors s !! out_cards = Some old ->
  let cs' := if decide (cards = out_cards) then [] else cs in
  (forall p, In p cs' -> is_Some (heap s !! p)) ->
  get_cards cards filter out_cards s
  = Some (length (matching filter (heap s) cs'),
          set_calls (calls s ++ pass_calls filter (heap s) cs')
            (set_vectors (<[out_cards := matching filter (heap s) cs']> (vectors s)) s)).
Proof.
  intros Hcs Hold cs' Hlive. unfold get_cards, clear.
  rewrite Exec_bind_run, (assign_run out_cards [] old s Hold).
  set (s1 := set_vectors (<[out_cards := []]> (vectors s)) s).
  assert (Hcs1 : vectors s1 !! cards = Some cs').
  { subst s1 cs'. cbn. destruct (decide (cards = out_cards)) as [->|Hne].
    - apply lookup_insert_eq.
    - now rewrite lookup_insert_ne by congruence. }
  assert (Hout1 : vectors s1 !! out_cards = Some []) by apply lookup_insert_eq.
  rewrite Exec_bind_run, (size_run cards cs' s1 Hcs1).
  rewrite Exec_bind_run, (reserve_run out_cards _ [] s1 Hout1).
  rewrite Exec_bind_run, (elements_run cards s1 cs' Hcs1).
  rewrite Exec_bind_run, (get_cards_loop out_cards cs' s1 [] Hout1 Hlive).
  cbn [app]. erewrite size_run by apply lookup_insert_eq.
  subst s1. destruct s; cbn. unfold set_calls, set_vectors; cbn.
  now rewrite insert_insert_eq.
Qed.

End get_cards.

Lemma matching_sublist {F} {HF : Filter F} (filter : F) (h : gmap nat Card) (cs : list nat) :
  sublist (matching filter h cs) cs.
Proof.
  unfold matching. induction cs as [|p cs IH]; cbn [List.filter].
  - constructor.
  - destruct (passes filter h p); now constructor.
Qed.

Lemma matching_In {F} {HF : Filter F} (filter : F) (h : gmap nat Card) (cs : list nat) (p : nat) :
  In p (matching filter h cs) <-> In p cs /\ passes filter h p = true.
Proof. apply filter_In. Qed.

(** C2, as the code has it: when the output vector is not the input vector,
    [get_cards] leaves in the output exactly the elements of the input that
    the filter accepts, in their order and each as often as the input has
    it, and returns their number. *)
Theorem get_cards_filters {F} {HF : Filter F} (filter : F) (cards out_cards : nat)
  (s : state) (cs old : list nat) :
  cards <> out_cards ->
  vectors s !! cards = Some cs ->
  vectors s !! out_cards = Some old ->
  (forall p, In p cs -> is_Some (heap s !! p)) ->
  exists s',
    get_cards cards filter out_cards s = Some (length (matching filter (heap s) cs), s')
    /\ vectors s' !! out_cards = Some (matching filter (heap s) cs)
    /\ matching filter (heap s) cs = List.filter (passes filter (heap s)) cs
    /\ sublist (matching filter (heap s) cs) cs
    /\ (forall p, In p (matching filter (heap s) cs)
                  <-> In p cs /\ passes filter (heap s) p = true)
    /\ (List.NoDup cs -> List.NoDup (matching filter (heap s) cs)).
Proof.
  intros Hne Hcs Hold Hlive.
  pose proof (get_cards_run filter cards out_cards s cs old Hcs Hold) as Hrun.
  cbn zeta in Hrun. destruct (decide (cards = out_cards)) as [Heq|_]; [contradiction|].
  eexists. split; [apply Hrun, Hlive|].
  split; [cbn; apply lookup_insert_eq|].
  split; [reflexivity|].
  split; [apply matching_sublist|].
  split; [intros p; apply matching_In|].
  apply List.NoDup_filter.
Qed.

(** The filter of [main] on two cards, of which it accepts the first. *)
Lemma get_cards_filters_witness :
  exists s',
    get_cards 0 main_filter 1 two_cards = Some (1%nat, s')
    /\ vectors s' !! 1%nat = Some [0%nat].
Proof.
  destruct (get_cards_filters main_filter 0 1 two_cards [0; 1]%nat []) as (s' & H1 & H2 & _).
  - discriminate.
  - reflexivity.
  - reflexivity.
  - intros p [<-|[<-|[]]]; eexists; reflexivity.
  - exists s'. split; [exact H1|exact H2].
Defined.

(** C2, as stated, fails: called with one vector as input and as output,
    [get_cards] returns 0 and leaves the vector empty, though the filter
    accepts the element it held. *)
Lemma get_cards_same_vector_loses_matches :
  vectors one_card !! 0%nat = Some [0%nat]
  /\ matching Build_EmptyFilter (heap one_card) [0%nat] = [0%nat]
  /\ exists s', get_cards 0 Build_EmptyFilter 0 one_card = Some (0%nat, s')
                /\ vectors s' !! 0%nat = Some [].
Proof.
  split; [reflexivity|]. split; [reflexivity|].
  eexists. split; vm_compute; reflexivity.
Qed.

(** A pass that completes only met pointers to live cards. *)
Lemma get_cards_loop_live {F} {HF : Filter F} (filter : F) (out_cards : nat) (cs : list nat) :
  forall (s : state) (r : unit * state),
    for_each cs (fun card =>
      c ← deref card;
      b ← logged (calling (call_filter card) (evaluate filter c));
      if b : bool then push_back out_cards card else mret tt) s = Some r ->
    forall p, In p cs -> is_Some (heap s !! p).
Proof.
  induction cs as [|p cs IH]; intros s r Hrun q Hq; [destruct Hq|].
  cbn [for_each] in Hrun. rewrite !Exec_bind_run in Hrun. unfold deref at 1 in Hrun.
  destruct (heap s !! p) as [c|] eqn:Hc; [|discriminate].
  destruct Hq as [<-|Hq]; [now exists c|].
  rewrite Exec_bind_run in Hrun. cbn [logged] in Hrun.
  destruct (value (calling (call_filter p) (evaluate filter c))).
  - unfold push_back at 1 in Hrun. rewrite Exec_bind_run in Hrun.
    unfold elements at 1 in Hrun. cbn [vectors set_calls] in Hrun.
    destruct (vectors s !! out_cards) as [l|] eqn:Hl; [|discriminate].
    erewrite assign_run in Hrun by (cbn; exact Hl).
    apply (IH _ _ Hrun q Hq).
  - apply (IH _ _ Hrun q Hq).
Qed.

(** When [get_cards] completes, both vectors exist and every pointer the
    loop runs over is live. *)
Lemma get_cards_Some_inv {F} {HF : Filter F} (filter : F) (cards out_cards : nat)
  (s s1 : state) (n : nat) :
  get_cards cards filter out_cards s = Some (n, s1) ->
  exists cs old,
    vectors s !! cards = Some cs
    /\ vectors s !! out_cards = Some old
    /\ forall p, In p (if decide (cards = out_cards) then [] else cs) ->
                 is_Some (heap s !! p).
Proof.
  unfold get_cards, clear. rewrite Exec_bind_run. unfold assign at 1.
  destruct (vectors s !! out_cards) as [old|] eqn:Hold; [|discriminate].
  set (s0 := set_vectors (<[out_cards := []]> (vectors s)) s).
  rewrite Exec_bind_run. unfold size at 1. rewrite Exec_bind_run. unfold elements at 1.
  destruct (vectors s0 !! cards) as [cs0|] eqn:Hcs0; [|discriminate].
  assert (Hout0 : vectors s0 !! out_cards = Some []) by apply lookup_insert_eq.
  cbn [mret Exec_ret]. rewrite Exec_bind_run, (reserve_run out_cards _ [] s0 Hout0).
  rewrite Exec_bind_run, (elements_run cards s0 cs0 Hcs0), Exec_bind_run.
  destruct (for_each cs0 _ s0) as [r|] eqn:Hloop; [|discriminate].
  intros _. pose proof (get_cards_loop_live filter out_cards cs0 s0 r Hloop) as Hlive.
  subst s0. cbn in Hcs0. destruct (decide (cards = out_cards)) as [->|Hne].
  - exists old, old. repeat split; try assumption. intros p [].
  - rewrite lookup_insert_ne in Hcs0 by congruence. exists cs0, old.
    repeat split; try assumption.
Qed.

(** C7: a second [get_cards] run with the same input, filter and output,
    right after a first one, returns the same count and leaves the output
    vector, and every other vector, as the first run left it. *)
Theorem get_cards_idempotent {F} {HF : Filter F} (filter : F) (cards out_cards : nat)
  (s s1 : state) (n : nat) :
  get_cards cards filter out_cards s = Some (n, s1) ->
  exists s2,
    get_cards cards filter out_cards s1 = Some (n, s2)
    /\ vectors s2 !! out_cards = vectors s1 !! out_cards
    /\ vectors s2 = vectors s1
    /\ heap s2 = heap s1.
Proof.
  intros Hrun.
  destruct (get_cards_Some_inv filter cards out_cards s s1 n Hrun)
    as (cs & old & Hcs & Hold & Hlive).
  rewrite (get_cards_run filter cards out_cards s cs old Hcs Hold Hlive) in Hrun.
  injection Hrun as Hn Hs1.
  set (cs' := if decide (cards = out_cards) then [] else cs) in *.
  set (m := matching filter (heap s) cs') in *.
  assert (Hheap : heap s1 = heap s) by now subst s1.
  assert (Hout1 : vectors s1 !! out_cards = Some m).
  { subst s1. cbn. apply lookup_insert_eq. }
  assert (Hcs1 : exists cs1, vectors s1 !! cards = Some cs1
                 /\ (if decide (cards = out_cards) then [] else cs1) = cs').
  { subst s1 cs'. cbn. destruct (decide (cards = out_cards)) as [->|Hne].
    - exists m. split; [apply lookup_insert_eq|reflexivity].
    - exists cs. split; [|reflexivity]. now rewrite lookup_insert_ne by congruence. }
  destruct Hcs1 as (cs1 & Hcs1 & Hcs1').
  pose proof (get_cards_run filter cards out_cards s1 cs1 m Hcs1 Hout1) as Hrun2.
  cbn zeta in Hrun2. rewrite Hcs1', Hheap in Hrun2.
  eexists. split; [|split; [|split]].
  - rewrite Hrun2 by exact Hlive. fold m. now rewrite Hn.
  - cbn. fold m. now rewrite lookup_insert_eq.
  - cbn. fold m. apply insert_id. exact Hout1.
  - cbn. reflexivity.
Qed.

(** Two runs of the filter of [main] over two cards. *)
Lemma get_cards_idempotent_witness :
  exists s1 s2,
    get_cards 0 main_filter 1 two_cards = Some (1%nat, s1)
    /\ get_cards 0 main_filter 1 s1 = Some (1%nat, s2)
    /\ vectors s2 !! 1%nat = vectors s1 !! 1%nat.
Proof.
  destruct (get_cards 0 main_filter 1 two_cards) as [[n s1]|] eqn:Hrun;
    [|vm_compute in Hrun; discriminate].
  assert (Hn : n = 1%nat) by (vm_compute in Hrun; congruence). subst n.
  destruct (get_cards_idempotent main_filter 0 1 two_cards s1 1 Hrun) as (s2 & H2 & H3 & _).
  exists s1, s2. split; [reflexivity|]. split; assumption.
Defined.

(** C8, as the code has it: when the output vector is not the input vector,
    [get_cards] leaves the input vector and every card as they were, touches
    no vector but the output, and calls [filter.evaluate] once for each
    element of the input, in order. *)
Theorem get_cards_frame {F} {HF : Filter F} (filter : F) (cards out_cards : nat)
  (s : state) (cs old : list nat) :
  cards <> out_cards ->
  vectors s !! cards = Some cs ->
  vectors s !! out_cards = Some old ->
  (forall p, In p cs -> is_Some (heap s !! p)) ->
  exists n s',
    get_cards cards filter out_cards s = Some (n, s')
    /\ vectors s' !! cards = Some cs
    /\ heap s' = heap s
    /\ (forall v, v <> out_cards -> vectors s' !! v = vectors s !! v)
    /\ cout s' = cout s
    /\ calls s' = calls s ++ pass_calls filter (heap s) cs.
Proof.
  intros Hne Hcs Hold Hlive.
  pose proof (get_cards_run filter cards out_cards s cs old Hcs Hold) as Hrun.
  cbn zeta in Hrun. destruct (decide (cards = out_cards)) as [Heq|_]; [contradiction|].
  eexists _, _. split; [apply Hrun, Hlive|].
  split; [cbn; now rewrite lookup_insert_ne by congruence|].
  split; [reflexivity|].
  split; [intros v Hv; cbn; now rewrite lookup_insert_ne by congruence|].
  split; reflexivity.
Qed.

(** The filter of [main] over two cards: both are evaluated once, and for
    the second, of cost 100, only the first base is called. *)
Lemma get_cards_frame_witness :
  exists n s',
    get_cards 0 main_filter 1 two_cards = Some (n, s')
    /\ vectors s' !! 0%nat = Some [0%nat; 1%nat]
    /\ calls s' = [call_filter 0; call_base 0; call_base 1; call_filter 1; call_base 0].
Proof.
  destruct (get_cards_frame main_filter 0 1 two_cards [0; 1]%nat [])
    as (n & s' & H1 & H2 & _ & _ & _ & H3).
  - discriminate.
  - reflexivity.
  - reflexivity.
  - intros p [<-|[<-|[]]]; eexists; reflexivity.
  - exists n, s'. split; [exact H1|]. split; [exact H2|]. rewrite H3. vm_compute. reflexivity.
Defined.

(** C8, as stated, fails: called with one vector as input and as output,
    [get_cards] empties its input. *)
Lemma get_cards_same_vector_clears_input :
  let s := set_vectors {[ 0%nat := [0%nat; 1%nat] ]} two_cards in
  vectors s !! 0%nat = Some [0%nat; 1%nat]
  /\ exists n s', get_cards 0 main_filter 0 s = Some (n, s')
                  /\ vectors s' !! 0%nat = Some []
                  /\ vectors s' !! 0%nat <> vectors s !! 0%nat.
Proof.
  split; [reflexivity|].
  eexists _, _. split; [vm_compute; reflexivity|]. split; [reflexivity|]. discriminate.
Qed.

(** ** The composer without declared filters *)

(** C10, as the code has it: [MetaFilter<>] is the composer with the single
    base [EmptyFilter]; its [evaluate] returns [true] on every record, and
    [get_cards] with it, into an output vector that is not the input vector,
    leaves the whole input in the output and returns its size. *)
Theorem MetaFilter_default_accepts_all (this : MetaFilter_of []) (card : Card)
  (cards out_cards : nat) (s : state) (cs old : list nat) :
  MetaFilter_of [] = MetaFilter EmptyFilter []
  /\ value (evaluate (F := MetaFilter EmptyFilter []) this card) = true
  /\ (cards <> out_cards ->
      vectors s !! cards = Some cs ->
      vectors s !! out_cards = Some old ->
      (forall p, In p cs -> is_Some (heap s !! p)) ->
      exists s',
        get_cards (F := MetaFilter EmptyFilter []) cards this out_cards s
        = Some (length cs, s')
        /\ vectors s' !! out_cards = Some cs).
Proof.
  split; [reflexivity|]. split; [reflexivity|].
  intros Hne Hcs Hold Hlive.
  pose proof (get_cards_run (F := MetaFilter EmptyFilter []) this cards out_cards s cs old
                Hcs Hold) as Hrun.
  cbn zeta in Hrun. destruct (decide (cards = out_cards)) as [Heq|_]; [contradiction|].
  specialize (Hrun Hlive).
  assert (Hall : matching (F := MetaFilter EmptyFilter []) this (heap s) cs = cs).
  { clear - Hlive. unfold matching. induction cs as [|p cs IH]; [reflexivity|].
    cbn [List.filter]. destruct (Hlive p (or_introl eq_refl)) as [c Hc].
    unfold passes at 1. rewrite Hc. cbn. f_equal. apply IH.
    intros q Hq. apply Hlive. now right. }
  rewrite Hall in Hrun. eexists. split; [exact Hrun|]. cbn. apply lookup_insert_eq.
Qed.

(** The default composer over two cards. *)
Lemma MetaFilter_default_accepts_all_witness :
  exists s',
    get_cards (F := MetaFilter EmptyFilter []) 0 ctor 1 two_cards = Some (2%nat, s')
    /\ vectors s' !! 1%nat = Some [0%nat; 1%nat].
Proof.
  destruct (MetaFilter_default_accepts_all ctor (Card_ctor 0 "Card1" (Float.lit 30 0) 1 0)
              0 1 two_cards [0; 1]%nat []) as (_ & _ & H).
  apply H.
  - discriminate.
  - reflexivity.
  - reflexivity.
  - intros p [<-|[<-|[]]]; eexists; reflexivity.
Defined.

(** C10, as stated, fails in its last part: with one vector as input and as
    output, filtering with the default composer returns nothing of the input. *)
Lemma MetaFilter_default_same_vector_returns_nothing :
  vectors one_card !! 0%nat = Some [0%nat]
  /\ exists s', get_cards (F := MetaFilter EmptyFilter []) 0 ctor 0 one_card = Some (0%nat, s')
                /\ vectors s' !! 0%nat = Some [].
Proof.
  split; [reflexivity|]. eexists. split; vm_compute; reflexivity.
Qed.

(** ** main *)

(** C5: in [main], [get_cards] returns 3 and leaves in [out_cards] the
    cards with the identifiers 0, 1 and 2, in that order; [main] prints them. *)
Theorem main_filters_three :
  exists cards out_cards s s',
    main_get_cards initial = Some ((3%nat, cards, out_cards), s)
    /\ vectors s !! out_cards = Some [0%nat; 1%nat; 2%nat]
    /\ map (fun p => m_id <$> heap s !! p) [0%nat; 1%nat; 2%nat] = [Some 0; Some 1; Some 2]
    /\ map (fun p => m_id <$> heap s !! p) <$> vectors s !! cards
       = Some [Some 0; Some 1; Some 2; Some 3; Some 4]
    /\ map (fun p => (m_version <$> heap s !! p, Text.of_float <$> (m_cost <$> heap s !! p)))
         <$> vectors s !! cards
       = Some [(Some 1, Some "30"); (Some 1, Some "10"); (Some 1, Some "12.5");
               (Some 1, Some "100"); (Some 2, Some "45")]
    /\ main initial = Some (0, s')
    /\ cout s' = endl "These are the filtered cards:"
                 +:+ endl "[0] Card1 (30) [1, 0]"
                 +:+ endl "[1] Card2 (10) [1, 0]"
                 +:+ endl "[2] Card3 (12.5) [1, 1]".
Proof.
  eexists _, _, _, _.
  split; [vm_compute; reflexivity|].
  split; [vm_compute; reflexivity|].
  split; [vm_compute; reflexivity|].
  split; [vm_compute; reflexivity|].
  split; [vm_compute; reflexivity|].
  split; vm_compute; reflexivity.
Qed.

(** ** More on the range filter *)

Lemma cost_chain_app (cs cs' : list cost_call) (this : CostFilter) :
  cost_chain (cs ++ cs') this = cost_chain cs' (cost_chain cs this).
Proof. apply fold_left_app. Qed.

(** X1: after a chain of [max_cost] and [min_cost] calls each bound is the
    value of the last call that set it, or what the filter had when no call
    set it; calls for one bound never disturb the other. *)
Theorem cost_chain_last_wins (cs : list cost_call) (this : CostFilter) :
  m_max_cost (cost_chain cs this) = List.last (max_values cs) (m_max_cost this)
  /\ m_min_cost (cost_chain cs this) = List.last (min_values cs) (m_min_cost this).
Proof.
  induction cs as [|c cs IH] using rev_ind; [now split|].
  rewrite cost_chain_app. unfold max_values, min_values in *.
  rewrite !flat_map_app. cbn [flat_map cost_chain fold_left do_cost_call].
  destruct IH as [IH1 IH2]. destruct c as [v|v]; cbn [app max_cost min_cost m_max_cost m_min_cost];
    rewrite ?app_nil_r, ?last_last; now split.
Qed.

(** X2: a NaN never passes: the range filter rejects a record whose cost is
    NaN, and a filter with a NaN bound rejects every record. *)
Theorem CostFilter_evaluate_nan (this : CostFilter) (card : Card) :
  is_nan (m_cost card) || is_nan (m_min_cost this) || is_nan (m_max_cost this) = true ->
  value (evaluate this card) = false.
Proof.
  unfold evaluate, CostFilter_evaluate, Float.gt, Float.lt, SFltb. rewrite value_ret.
  destruct (m_cost card) as [?|?| |? ? ?], (m_min_cost this) as [?|?| |? ? ?],
    (m_max_cost this) as [?|?| |? ? ?]; cbn [is_nan orb]; try discriminate; intros _;
    cbn [SFcompare]; rewrite ?andb_false_r; reflexivity.
Qed.

Lemma CostFilter_evaluate_nan_witness :
  value (evaluate (max_cost S754_nan ctor) (Card_ctor 0 "Card1" (Float.lit 30 0) 1 0)) = false.
Proof.
  apply (CostFilter_evaluate_nan (max_cost S754_nan ctor)
           (Card_ctor 0 "Card1" (Float.lit 30 0) 1 0)).
  vm_compute. reflexivity.
Defined.

(** The order on significand and exponent that [SFcompare] uses for two
    finite numbers of one sign. *)
Lemma finite_order_trans (e1 e2 e3 : Z) (m1 m2 m3 : positive) :
  match e1 ?= e2 with Lt => Lt | Gt => Gt | Eq => Pos.compare_cont Eq m1 m2 end = Lt ->
  match e2 ?= e3 with Lt => Lt | Gt => Gt | Eq => Pos.compare_cont Eq m2 m3 end = Lt ->
  match e1 ?= e3 with Lt => Lt | Gt => Gt | Eq => Pos.compare_cont Eq m1 m3 end = Lt.
Proof.
  change (Pos.compare_cont Eq m1 m2) with (Pos.compare m1 m2).
  change (Pos.compare_cont Eq m2 m3) with (Pos.compare m2 m3).
  change (Pos.compare_cont Eq m1 m3) with (Pos.compare m1 m3).
  destruct (Z.compare_spec e1 e2), (Z.compare_spec e2 e3), (Z.compare_spec e1 e3);
    try discriminate; try reflexivity; try lia;
    rewrite !Pos.compare_lt_iff; lia.
Qed.

Lemma finite_order_opp (e1 e2 : Z) (m1 m2 : positive) :
  match e1 ?= e2 with
  | Lt => Gt | Gt => Lt
  | Eq => CompOpp (Pos.compare_cont Eq m1 m2)
  end
  = match e2 ?= e1 with Lt => Lt | Gt => Gt | Eq => Pos.compare_cont Eq m2 m1 end.
Proof.
  change (Pos.compare_cont Eq m1 m2) with (Pos.compare m1 m2).
  change (Pos.compare_cont Eq m2 m1) with (Pos.compare m2 m1).
  rewrite (Z.compare_antisym e1 e2), (Pos.compare_antisym m1 m2).
  destruct (e1 ?= e2); reflexivity.
Qed.

(** [<] on floats is transitive. *)
Lemma Float_lt_trans (a b c : float) :
  Float.lt a b = true -> Float.lt b c = true -> Float.lt a c = true.
Proof.
  unfold Float.lt, SFltb.
  destruct a as [[]|[]| |[] m1 e1], b as [[]|[]| |[] m2 e2], c as [[]|[]| |[] m3 e3];
    cbn [SFcompare]; try discriminate; try reflexivity;
    rewrite ?finite_order_opp; intros H1 H2.
  - pose proof (finite_order_trans e3 e2 e1 m3 m2 m1) as H.
    destruct (match e3 ?= e2 with Lt => Lt | Gt => Gt | Eq => Pos.compare_cont Eq m3 m2 end);
      try discriminate.
    destruct (match e2 ?= e1 with Lt => Lt | Gt => Gt | Eq => Pos.compare_cont Eq m2 m1 end);
      try discriminate.
    now rewrite H.
  - pose proof (finite_order_trans e1 e2 e3 m1 m2 m3) as H.
    destruct (match e1 ?= e2 with Lt => Lt | Gt => Gt | Eq => Pos.compare_cont Eq m1 m2 end);
      try discriminate.
    destruct (match e2 ?= e3 with Lt => Lt | Gt => Gt | Eq => Pos.compare_cont Eq m2 m3 end);
      try discriminate.
    now rewrite H.
Qed.

(** X3: a range filter whose minimum is not below its maximum rejects every
    record. *)
Theorem CostFilter_evaluate_inverted (this : CostFilter) (card : Card) :
  Float.lt (m_min_cost this) (m_max_cost this) = false ->
  value (evaluate this card) = false.
Proof.
  intros Hinv.
  destruct (value (evaluate this card)) eqn:Hev; [|reflexivity].
  unfold evaluate, CostFilter_evaluate in Hev. rewrite value_ret in Hev.
  apply andb_true_iff in Hev as [H1 H2]. unfold Float.gt in H1. fold (Float.lt (m_min_cost this) (m_cost card)) in H1.
  rewrite (Float_lt_trans _ _ _ H1 H2) in Hinv. discriminate.
Qed.

Lemma CostFilter_evaluate_inverted_witness :
  value (evaluate (min_cost (Float.lit 50 0) (max_cost (Float.lit 50 0) ctor))
           (Card_ctor 0 "Card1" (Float.lit 50 0) 1 0)) = false.
Proof.
  apply (CostFilter_evaluate_inverted (min_cost (Float.lit 50 0) (max_cost (Float.lit 50 0) ctor))
           (Card_ctor 0 "Card1" (Float.lit 50 0) 1 0)).
  vm_compute. reflexivity.
Defined.

Lemma finite_order_Eq (e1 e2 : Z) (m1 m2 : positive) :
  match e1 ?= e2 with Lt => Lt | Gt => Gt | Eq => Pos.compare_cont Eq m1 m2 end = Eq ->
  e1 = e2 /\ m1 = m2.
Proof.
  change (Pos.compare_cont Eq m1 m2) with (Pos.compare m1 m2).
  destruct (Z.compare_spec e1 e2); try discriminate.
  intros Hm%Pos.compare_eq. now split.
Qed.

(** A finite positive number other than the largest is below the largest. *)
Lemma Float_lt_max (m : positive) (e : Z) :
  Float.valid (S754_finite false m e) = true ->
  S754_finite false m e <> Float.max ->
  Float.lt (S754_finite false m e) Float.max = true.
Proof.
  intros Hv Hne. pose proof (Float_max_largest _ Hv eq_refl) as Hle.
  rewrite Float_max_value in *. unfold Float.le, Float.lt, SFleb, SFltb, SFcompare in *.
  destruct (match e ?= 104 with Lt => Lt | Gt => Gt | Eq => Pos.compare_cont Eq m 16777215 end)
    eqn:Hc; try reflexivity; try discriminate.
  apply finite_order_Eq in Hc as [-> ->]. now elim Hne.
Qed.

(** X4: a default-constructed range filter accepts exactly the finite costs
    above zero other than the largest [float]: it rejects the costs 0 and -0,
    every negative cost, the largest [float], both infinities and NaN. *)
Theorem CostFilter_default_accepts (card : Card) :
  Float.valid (m_cost card) = true ->
  (value (evaluate (ctor : CostFilter) card) = true
   <-> (exists m e, m_cost card = S754_finite false m e) /\ m_cost card <> Float.max).
Proof.
  intros Hv. unfold evaluate, CostFilter_evaluate. rewrite value_ret.
  cbn [ctor CostFilter_ctor m_min_cost m_max_cost]. rewrite andb_true_iff.
  destruct (m_cost card) as [s|s| |s m e] eqn:Hx.
  - split; [intros [H _]; destruct s; discriminate|intros [(m & e & H) _]; discriminate].
  - split; [|intros [(m & e & H) _]; discriminate].
    rewrite Float_max_value. intros [H1 H2]. destruct s; discriminate.
  - split; [intros [H _]; discriminate|intros [(m & e & H) _]; discriminate].
  - destruct s.
    + split; [intros [H _]; discriminate|intros [(m' & e' & H) _]; discriminate].
    + split.
      * intros [_ H2]. split; [now exists m, e|].
        intros Heq. rewrite Heq, Float_max_value in H2.
        unfold Float.lt, SFltb, SFcompare in H2. rewrite Z.compare_refl in H2.
        change (Pos.compare_cont Eq 16777215 16777215) with (Pos.compare 16777215 16777215) in H2.
        rewrite Pos.compare_refl in H2. discriminate.
      * intros [_ Hne]. split; [reflexivity|]. now apply Float_lt_max.
Qed.

Lemma CostFilter_default_accepts_witness :
  value (evaluate (ctor : CostFilter) (Card_ctor 9 "Free" Float.zero 1 0)) = true
  <-> (exists m e, Float.zero = S754_finite false m e) /\ Float.zero <> Float.max.
Proof.
  apply (CostFilter_default_accepts (Card_ctor 9 "Free" Float.zero 1 0)). reflexivity.
Defined.

(** ** More on the membership filter *)

(** X5: [add_version( v )] widens the filter by exactly the version [v]: the
    filter then accepts what it accepted before and the records of version
    [v]; it never rejects a record it accepted. *)
Theorem add_version_widens (v : Z) (this : VersionFilter) (card : Card) :
  value (evaluate (add_version v this) card)
  = value (evaluate this card) || (m_version card =? v).
Proof.
  apply eq_true_iff_eq. rewrite orb_true_iff, !VersionFilter_evaluate_In.
  cbn [add_version m_versions]. rewrite in_app_iff, Z.eqb_eq. cbn [In]. intuition congruence.
Qed.

(** X6: only the set of accepted versions counts: two filters whose
    sequences hold the same versions, in whatever order and however often,
    accept the same records. *)
Theorem VersionFilter_evaluate_set (this other : VersionFilter) (card : Card) :
  (forall v, In v (m_versions this) <-> In v (m_versions other)) ->
  value (evaluate this card) = value (evaluate other card).
Proof.
  intros Hsame. apply eq_true_iff_eq. rewrite !VersionFilter_evaluate_In. apply Hsame.
Qed.

Lemma VersionFilter_evaluate_set_witness :
  value (evaluate (VersionFilter_init [1; 3; 1]) (Card_ctor 0 "Card1" (Float.lit 30 0) 3 0))
  = value (evaluate (added [3; 1]) (Card_ctor 0 "Card1" (Float.lit 30 0) 3 0)).
Proof.
  apply (VersionFilter_evaluate_set (VersionFilter_init [1; 3; 1]) (added [3; 1])).
  intros v. cbn. tauto.
Defined.

(** X7: a filter constructed from an initializer list holds the list, and
    [add_version] calls append to it in call order; it accepts the versions
    of the list and the added ones, and no other. *)
Theorem VersionFilter_init_then_add (init_list S : list Z) (card : Card) :
  m_versions (fold_left (fun this v => add_version v this) S (VersionFilter_init init_list))
  = init_list ++ S
  /\ (value (evaluate
               (fold_left (fun this v => add_version v this) S (VersionFilter_init init_list))
               card) = true
      <-> In (m_version card) init_list \/ In (m_version card) S)
  /\ VersionFilter_init S = added S.
Proof.
  assert (H : m_versions (fold_left (fun this v => add_version v this) S
                            (VersionFilter_init init_list)) = init_list ++ S)
    by apply added_versions.
  split; [exact H|]. split.
  - rewrite VersionFilter_evaluate_In, H. apply in_app_iff.
  - pose proof (added_versions S ctor) as HS. fold (added S) in HS. cbn in HS.
    destruct (added S) as [l]. cbn in HS. now subst l.
Qed.

(** ** More on the composer *)

Lemma up_to_first_false_all (runs : list (Log bool)) :
  fold_right andb true (map value runs) = true -> up_to_first_false runs = runs.
Proof.
  induction runs as [|r runs IH]; cbn [map fold_right up_to_first_false]; [reflexivity|].
  intros H. apply andb_true_iff in H as [Hr Hrest]. now rewrite Hr, IH.
Qed.

Lemma MetaFilter_evaluate_value {F Ms} {HF : Filter F} {fs : Filters Ms}
  (this : MetaFilter F Ms) (card : Card) :
  value (evaluate this card)
  = value (evaluate (base this) card)
    && fold_right andb true (map value (runs_more fs card (more this))).
Proof.
  unfold evaluate at 1, MetaFilter_evaluate.
  now rewrite value_bind, evaluate_more_value, value_calling.
Qed.

Lemma MetaFilter_evaluate_trace {F Ms} {HF : Filter F} {fs : Filters Ms}
  (this : MetaFilter F Ms) (card : Card) :
  trace (evaluate this card)
  = call_base 0 :: trace (evaluate (base this) card)
    ++ trace (evaluate_more fs 1 card (value (evaluate (base this) card)) (more this)).
Proof. reflexivity. Qed.

(** X8: the composer always calls its first base, and when its [evaluate]
    returns [true] it has called every base, once each, in declaration
    order. *)
Theorem MetaFilter_evaluate_true_calls_all
  {F Ms} {HF : Filter F} {fs : Filters Ms} (this : MetaFilter F Ms) (card : Card) :
  (exists rest, trace (evaluate this card) = call_base 0 :: rest)
  /\ (value (evaluate this card) = true ->
      trace (evaluate this card) = base_calls 0 (component_runs this card)).
Proof.
  split; [eexists; apply MetaFilter_evaluate_trace|].
  rewrite MetaFilter_evaluate_value, MetaFilter_evaluate_trace. intros H.
  apply andb_true_iff in H as [Hb Hm]. rewrite Hb, evaluate_more_trace.
  now rewrite (up_to_first_false_all _ Hm).
Qed.

Lemma MetaFilter_evaluate_true_calls_all_witness :
  trace (evaluate main_filter (Card_ctor 0 "Card1" (Float.lit 30 0) 1 0))
  = [call_base 0; call_base 1].
Proof.
  rewrite (proj2 (MetaFilter_evaluate_true_calls_all main_filter
                    (Card_ctor 0 "Card1" (Float.lit 30 0) 1 0)));
    vm_compute; reflexivity.
Defined.


(** X10: the answer of a composer over two filters does not depend on the
    order in which the two are declared. *)
Theorem MetaFilter_order_irrelevant {A B} {HA : Filter A} {HB : Filter B}
  (a : A) (b : B) (card : Card) :
  value (evaluate (Build_MetaFilter (MoreFilters := [B]) a (b, tt)) card)
  = value (evaluate (Build_MetaFilter (MoreFilters := [A]) b (a, tt)) card).
Proof.
  rewrite !MetaFilter_evaluate_value. cbn [runs_more base more map fold_right fst snd].
  rewrite !andb_true_r. apply andb_comm.
Qed.

(** X11: the filter [main] configures through the composer accepts exactly
    the records of version 1 or 3 whose cost is above 0 and below 50. *)
Theorem main_filter_accepts (card : Card) :
  value (evaluate main_filter card) = true
  <-> (m_version card = 1 \/ m_version card = 3)
      /\ Float.lt Float.zero (m_cost card) = true
      /\ Float.lt (m_cost card) (Float.lit 50 0) = true.
Proof.
  rewrite MetaFilter_evaluate_value.
  change (runs_more _ card (more main_filter))
    with [evaluate (add_version 3 (add_version 1 ctor)) card].
  change (base main_filter) with (max_cost (Float.lit 50 0) ctor).
  cbn [map fold_right]. rewrite andb_true_r, andb_true_iff, VersionFilter_evaluate_In.
  unfold evaluate at 1, CostFilter_evaluate. rewrite value_ret, andb_true_iff.
  cbn [max_cost m_min_cost m_max_cost ctor CostFilter_ctor add_version m_versions
         VersionFilter_ctor app In].
  unfold Float.gt, Float.lt. intuition congruence.
Qed.

(** ** More on the collection filter *)

Lemma passes_live {F} {HF : Filter F} (filter : F) (h : gmap nat Card) (p : nat) :
  passes filter h p = true -> is_Some (h !! p).
Proof. unfold passes. destruct (h !! p); [eauto|discriminate]. Qed.

Lemma matching_idem {F} {HF : Filter F} (filter : F) (h : gmap nat Card) (cs : list nat) :
  matching filter h (matching filter h cs) = matching filter h cs.
Proof.
  unfold matching. induction cs as [|p cs IH]; [reflexivity|]. cbn [List.filter].
  destruct (passes filter h p) eqn:Hp; [|exact IH]. cbn [List.filter]. now rewrite Hp, IH.
Qed.

Lemma matching_length {F} {HF : Filter F} (filter : F) (h : gmap nat Card) (cs : list nat) :
  (length (matching filter h cs) <= length cs)%nat.
Proof. apply List.filter_length_le. Qed.

(** X12: called with one vector as input and as output, [get_cards] empties
    that vector and returns 0 without calling the filter or reading a card. *)
Theorem get_cards_same_vector {F} {HF : Filter F} (filter : F) (v : nat)
  (s : state) (old : list nat) :
  vectors s !! v = Some old ->
  get_cards v filter v s = Some (0%nat, set_vectors (<[v := []]> (vectors s)) s).
Proof.
  intros Hv. pose proof (get_cards_run filter v v s old old Hv Hv) as Hrun.
  cbn zeta in Hrun. destruct (decide (v = v)) as [_|Hne]; [|contradiction].
  rewrite Hrun by (intros p []). cbn. rewrite app_nil_r. now destruct s.
Qed.

Lemma get_cards_same_vector_witness :
  get_cards 0 main_filter 0 one_card
  = Some (0%nat, set_vectors (<[0%nat := []]> (vectors one_card)) one_card).
Proof.
  apply (get_cards_same_vector main_filter 0 one_card [0%nat]). reflexivity.
Defined.

(** X13: [get_cards] is defined exactly when both vectors exist and, unless
    they are one vector, every element of the input points to a live card;
    the old elements of the output need not. *)
Theorem get_cards_defined {F} {HF : Filter F} (filter : F) (cards out_cards : nat) (s : state) :
  is_Some (get_cards cards filter out_cards s)
  <-> exists cs old,
        vectors s !! cards = Some cs
        /\ vectors s !! out_cards = Some old
        /\ (cards <> out_cards -> forall p, In p cs -> is_Some (heap s !! p)).
Proof.
  split.
  - intros [[n s1] Hrun].
    destruct (get_cards_Some_inv filter cards out_cards s s1 n Hrun)
      as (cs & old & Hcs & Hold & Hlive).
    exists cs, old. split; [exact Hcs|]. split; [exact Hold|]. intros Hne.
    destruct (decide (cards = out_cards)); [contradiction|exact Hlive].
  - intros (cs & old & Hcs & Hold & Hlive).
    rewrite (get_cards_run filter cards out_cards s cs old Hcs Hold); [eauto|].
    destruct (decide (cards = out_cards)) as [Heq|Hne]; [intros p []|now apply Hlive].
Qed.

(** X14: what the output vector held before the call has no effect: after
    replacing its elements, [get_cards] returns the same count and leaves
    the same state. *)
Theorem get_cards_ignores_old_output {F} {HF : Filter F} (filter : F) (cards out_cards : nat)
  (s : state) (old old' : list nat) :
  cards <> out_cards ->
  vectors s !! out_cards = Some old ->
  get_cards cards filter out_cards (set_vectors (<[out_cards := old']> (vectors s)) s)
  = get_cards cards filter out_cards s.
Proof.
  intros Hne Hold. set (s2 := set_vectors (<[out_cards := old']> (vectors s)) s).
  assert (Hold2 : vectors s2 !! out_cards = Some old') by apply lookup_insert_eq.
  assert (Hcards : vectors s2 !! cards = vectors s !! cards).
  { subst s2. cbn. now rewrite lookup_insert_ne by congruence. }
  assert (Hgo : forall cs, vectors s !! cards = Some cs ->
                  (forall p, In p cs -> is_Some (heap s !! p)) ->
                  get_cards cards filter out_cards s2 = get_cards cards filter out_cards s).
  { intros cs Hcs Hlive.
    pose proof (get_cards_run filter cards out_cards s cs old Hcs Hold) as H1.
    pose proof (get_cards_run filter cards out_cards s2 cs old') as H2.
    rewrite Hcards in H2. specialize (H2 Hcs Hold2). cbn zeta in H1, H2.
    destruct (decide (cards = out_cards)); [contradiction|].
    rewrite H1, H2 by exact Hlive. subst s2. destruct s; cbn.
    unfold set_calls, set_vectors; cbn. now rewrite insert_insert_eq. }
  destruct (get_cards cards filter out_cards s) as [[n s1]|] eqn:Hrun.
  - destruct (get_cards_Some_inv filter cards out_cards s s1 n Hrun)
      as (cs & old0 & Hcs & _ & Hlive).
    destruct (decide (cards = out_cards)); [contradiction|].
    exact (Hgo cs Hcs Hlive).
  - destruct (get_cards cards filter out_cards s2) as [[n s1]|] eqn:Hrun2; [|reflexivity].
    destruct (get_cards_Some_inv filter cards out_cards s2 s1 n Hrun2)
      as (cs & old0 & Hcs & _ & Hlive).
    destruct (decide (cards = out_cards)); [contradiction|].
    rewrite Hcards in Hcs. specialize (Hgo cs Hcs Hlive). discriminate.
Qed.

Lemma get_cards_ignores_old_output_witness :
  get_cards 0 main_filter 1 (set_vectors (<[1%nat := [1%nat; 1%nat]]> (vectors two_cards)) two_cards)
  = get_cards 0 main_filter 1 two_cards.
Proof.
  apply (get_cards_ignores_old_output main_filter 0 1 two_cards [] [1%nat; 1%nat]).
  - discriminate.
  - reflexivity.
Defined.

Lemma matching_live {F} {HF : Filter F} (filter : F) (h : gmap nat Card) (cs : list nat) (p : nat) :
  In p (matching filter h cs) -> is_Some (h !! p).
Proof. intros Hp. apply filter_In in Hp as [_ Hp]. exact (passes_live filter h p Hp). Qed.

(** X15: filtering the output of [get_cards] again, with the same filter,
    into a further vector returns the same cards and the same count. *)
Theorem get_cards_again {F} {HF : Filter F} (filter : F) (cards out_cards again : nat)
  (s : state) (cs old old' : list nat) :
  cards <> out_cards ->
  out_cards <> again ->
  vectors s !! cards = Some cs ->
  vectors s !! out_cards = Some old ->
  vectors s !! again = Some old' ->
  (forall p, In p cs -> is_Some (heap s !! p)) ->
  exists n s1 s2,
    get_cards cards filter out_cards s = Some (n, s1)
    /\ get_cards out_cards filter again s1 = Some (n, s2)
    /\ vectors s2 !! again = vectors s1 !! out_cards
    /\ vectors s2 !! out_cards = vectors s1 !! out_cards.
Proof.
  intros Hne Hne2 Hcs Hold Hold' Hlive.
  pose proof (get_cards_run filter cards out_cards s cs old Hcs Hold) as H1.
  cbn zeta in H1. destruct (decide (cards = out_cards)); [contradiction|].
  specialize (H1 Hlive).
  set (m := matching filter (heap s) cs) in *.
  set (s1 := set_calls _ _) in H1.
  assert (Hout1 : vectors s1 !! out_cards = Some m) by apply lookup_insert_eq.
  assert (Hagain1 : vectors s1 !! again = Some old').
  { subst s1. cbn. now rewrite lookup_insert_ne by congruence. }
  pose proof (get_cards_run filter out_cards again s1 m old' Hout1 Hagain1) as H2.
  cbn zeta in H2. destruct (decide (out_cards = again)); [contradiction|].
  change (heap s1) with (heap s) in H2. unfold m in H2 at 1 2 3 4.
  rewrite !matching_idem in H2. fold m in H2.
  eexists _, _, _. split; [exact H1|]. split; [apply H2|].
  - intros p Hp. exact (matching_live filter (heap s) cs p Hp).
  - split.
    + cbn. rewrite lookup_insert_eq. symmetry. apply lookup_insert_eq.
    + cbn. now rewrite lookup_insert_ne by congruence.
Qed.

Lemma get_cards_again_witness :
  exists n s1 s2,
    get_cards 0 main_filter 1 two_cards = Some (n, s1)
    /\ get_cards 1 main_filter 0 s1 = Some (n, s2)
    /\ vectors s2 !! 0%nat = vectors s1 !! 1%nat.
Proof.
  destruct (get_cards_again main_filter 0 1 0 two_cards [0; 1]%nat [] [0; 1]%nat)
    as (n & s1 & s2 & H1 & H2 & H3 & _).
  - discriminate.
  - discriminate.
  - reflexivity.
  - reflexivity.
  - reflexivity.
  - intros p [<-|[<-|[]]]; eexists; reflexivity.
  - now exists n, s1, s2.
Defined.

Lemma passes_MetaFilter {A B} {HA : Filter A} {HB : Filter B} (a : A) (b : B)
  (h : gmap nat Card) (p : nat) :
  passes (Build_MetaFilter (MoreFilters := [B]) a (b, tt)) h p = passes a h p && passes b h p.
Proof.
  unfold passes. destruct (h !! p) as [c|]; [|reflexivity].
  rewrite MetaFilter_evaluate_value. cbn [runs_more base more map fold_right fst snd].
  now rewrite andb_true_r.
Qed.

Lemma matching_MetaFilter {A B} {HA : Filter A} {HB : Filter B} (a : A) (b : B)
  (h : gmap nat Card) (cs : list nat) :
  matching (Build_MetaFilter (MoreFilters := [B]) a (b, tt)) h cs
  = matching b h (matching a h cs).
Proof.
  unfold matching. induction cs as [|p cs IH]; [reflexivity|]. cbn [List.filter].
  rewrite passes_MetaFilter. destruct (passes a h p); cbn [andb List.filter].
  - destruct (passes b h p); now rewrite IH.
  - exact IH.
Qed.

(** X16: filtering with a composer over two filters gives the same cards and
    the same count as filtering with the first filter into a vector and
    filtering that vector with the second. *)
Theorem get_cards_composed {A B} {HA : Filter A} {HB : Filter B} (a : A) (b : B)
  (cards tmp out_cards : nat) (s : state) (cs old old' : list nat) :
  cards <> tmp -> tmp <> out_cards -> cards <> out_cards ->
  vectors s !! cards = Some cs ->
  vectors s !! tmp = Some old ->
  vectors s !! out_cards = Some old' ->
  (forall p, In p cs -> is_Some (heap s !! p)) ->
  exists n k s1 s2 s',
    get_cards cards a tmp s = Some (k, s1)
    /\ get_cards tmp b out_cards s1 = Some (n, s2)
    /\ get_cards cards (Build_MetaFilter (MoreFilters := [B]) a (b, tt)) out_cards s
       = Some (n, s')
    /\ vectors s' !! out_cards = vectors s2 !! out_cards.
Proof.
  intros Hne1 Hne2 Hne3 Hcs Hold Hold' Hlive.
  pose proof (get_cards_run a cards tmp s cs old Hcs Hold) as H1.
  cbn zeta in H1. destruct (decide (cards = tmp)); [contradiction|].
  specialize (H1 Hlive). set (s1 := set_calls _ _) in H1.
  assert (Htmp1 : vectors s1 !! tmp = Some (matching a (heap s) cs)) by apply lookup_insert_eq.
  assert (Hout1 : vectors s1 !! out_cards = Some old').
  { subst s1. cbn. now rewrite lookup_insert_ne by congruence. }
  pose proof (get_cards_run b tmp out_cards s1 _ old' Htmp1 Hout1) as H2.
  cbn zeta in H2. destruct (decide (tmp = out_cards)); [contradiction|].
  change (heap s1) with (heap s) in H2.
  pose proof (get_cards_run (Build_MetaFilter (MoreFilters := [B]) a (b, tt))
                cards out_cards s cs old' Hcs Hold') as H3.
  cbn zeta in H3. destruct (decide (cards = out_cards)); [contradiction|].
  specialize (H3 Hlive). rewrite !matching_MetaFilter in H3.
  eexists _, _, _, _, _. split; [exact H1|]. split; [apply H2|]. 2: split; [exact H3|].
  - intros p Hp. exact (matching_live a (heap s) cs p Hp).
  - cbn. now rewrite !lookup_insert_eq.
Qed.

Lemma get_cards_composed_witness :
  exists n k s1 s2 s',
    get_cards 0 (max_cost (Float.lit 50 0) ctor) 1 (set_vectors (<[2%nat := []]> (vectors two_cards)) two_cards)
    = Some (k, s1)
    /\ get_cards 1 (added [1; 3]) 2 s1 = Some (n, s2)
    /\ get_cards 0 (Build_MetaFilter (MoreFilters := [VersionFilter : Type])
                      (max_cost (Float.lit 50 0) ctor) (added [1; 3], tt)) 2
         (set_vectors (<[2%nat := []]> (vectors two_cards)) two_cards)
       = Some (n, s')
    /\ vectors s' !! 2%nat = vectors s2 !! 2%nat.
Proof.
  apply (get_cards_composed (max_cost (Float.lit 50 0) ctor) (added [1; 3]) 0 1 2
           (set_vectors (<[2%nat := []]> (vectors two_cards)) two_cards) [0; 1]%nat [] []).
  - discriminate.
  - discriminate.
  - discriminate.
  - reflexivity.
  - reflexivity.
  - reflexivity.
  - intros p [<-|[<-|[]]]; eexists; reflexivity.
Defined.

(** X17: the count [get_cards] returns is the size of the output vector it
    leaves, never more than the size of the input, and every pointer of the
    output is an element of the input and points to a live card. *)
Theorem get_cards_output {F} {HF : Filter F} (filter : F) (cards out_cards : nat)
  (s s' : state) (n : nat) :
  get_cards cards filter out_cards s = Some (n, s') ->
  exists cs l,
    vectors s !! cards = Some cs
    /\ vectors s' !! out_cards = Some l
    /\ n = length l
    /\ (n <= length cs)%nat
    /\ forall p, In p l -> In p cs /\ is_Some (heap s' !! p).
Proof.
  intros Hrun.
  destruct (get_cards_Some_inv filter cards out_cards s s' n Hrun)
    as (cs & old & Hcs & Hold & Hlive).
  rewrite (get_cards_run filter cards out_cards s cs old Hcs Hold Hlive) in Hrun.
  injection Hrun as Hn Hs'. subst n s'.
  exists cs. eexists. split; [exact Hcs|]. split; [cbn; apply lookup_insert_eq|].
  split; [reflexivity|].
  destruct (decide (cards = out_cards)).
  - split; [cbn; lia|]. intros p [].
  - split; [apply matching_length|]. intros p Hp. split.
    + now apply filter_In in Hp as [Hp _].
    + exact (matching_live filter (heap s) cs p Hp).
Qed.

Lemma get_cards_output_witness :
  exists s', get_cards 0 main_filter 1 two_cards = Some (1%nat, s')
             /\ exists cs l, vectors two_cards !! 0%nat = Some cs
                             /\ vectors s' !! 1%nat = Some l /\ 1%nat = length l.
Proof.
  destruct (get_cards 0 main_filter 1 two_cards) as [[n s']|] eqn:Hrun;
    [|vm_compute in Hrun; discriminate].
  assert (Hn : n = 1%nat) by (vm_compute in Hrun; congruence). subst n.
  exists s'. split; [reflexivity|].
  destruct (get_cards_output main_filter 0 1 two_cards s' 1 Hrun) as (cs & l & H1 & H2 & H3 & _).
  now exists cs, l.
Defined.

(** ** The loops of main *)

Lemma append_nil_r (a : string) : a +:+ "" = a.
Proof.
  induction a as [|x a IH]; [reflexivity|].
  change (String x (a +:+ "") = String x a). now rewrite IH.
Qed.

Lemma put_Card_appends (os : ostream) (card : Card) :
  put_Card os card = os +:+ put_Card "" card.
Proof.
  unfold put_Card, put_chars, put_int, put_float. rewrite !append_assoc. reflexivity.
Qed.

(** X18: the printing loop of [main] appends to the output, for each card of
    the vector in order, the text of the card and a line end; it changes
    nothing else, and it needs every pointer to be live. *)
Theorem print_loop_lines (out : list nat) (s : state) :
  (forall p, In p out -> is_Some (heap s !! p)) ->
  for_each out (fun card => c ← deref card; print (fun os => endl (put_Card os c))) s
  = Some (tt, set_cout (cout s +:+ card_lines (heap s) out) s).
Proof.
  revert s. induction out as [|p out IH]; intros s Hlive.
  - cbn [for_each card_lines]. rewrite append_nil_r. now destruct s.
  - destruct (Hlive p (or_introl eq_refl)) as [c Hc].
    cbn [for_each card_lines]. rewrite Hc, !Exec_bind_run, (deref_run p c s Hc).
    cbn [print]. rewrite IH by (intros q Hq; apply Hlive; now right).
    cbn [cout set_cout heap]. unfold endl. rewrite put_Card_appends, !append_assoc.
    now destruct s.
Qed.

Lemma print_loop_lines_witness :
  for_each [0%nat] (fun card => c ← deref card; print (fun os => endl (put_Card os c))) one_card
  = Some (tt, set_cout (cout one_card +:+ card_lines (heap one_card) [0%nat]) one_card).
Proof.
  apply (print_loop_lines [0%nat] one_card).
  intros p [<-|[]]. eexists. reflexivity.
Defined.

(** The deleting loop of [main], run to its end. *)
Lemma delete_loop_run (cs : list nat) :
  forall s : state,
    List.NoDup cs ->
    (forall p, In p cs -> is_Some (heap s !! p)) ->
    exists s',
      for_each cs delete_Card s = Some (tt, s')
      /\ vectors s' = vectors s /\ cout s' = cout s /\ calls s' = calls s
      /\ (forall p, In p cs -> heap s' !! p = None)
      /\ (forall p, ~ In p cs -> heap s' !! p = heap s !! p).
Proof.
  induction cs as [|p cs IH]; intros s Hnd Hlive.
  - exists s. cbn [for_each]. repeat split; try reflexivity. intros p [].
  - apply List.NoDup_cons_iff in Hnd as [Hp Hnd].
    destruct (Hlive p (or_introl eq_refl)) as [c Hc].
    destruct (IH (set_heap (delete p (heap s)) s) Hnd) as (s' & Hrun & Hv & Hco & Hca & Hin & Hout).
    { intros q Hq. cbn. rewrite lookup_delete_ne by (intros ->; contradiction).
      apply Hlive. now right. }
    exists s'. cbn [for_each]. rewrite Exec_bind_run. unfold delete_Card at 1. rewrite Hc.
    split; [exact Hrun|]. split; [exact Hv|]. split; [exact Hco|]. split; [exact Hca|]. split.
    + intros q [<-|Hq]; [|now apply Hin]. rewrite (Hout p Hp). cbn. apply lookup_delete_eq.
    + intros q Hq. rewrite Hout by (intros H; apply Hq; now right).
      cbn. apply lookup_delete_ne. intros ->. apply Hq. now left.
Qed.

Lemma delete_loop_Some (cs : list nat) :
  forall s : state,
    is_Some (for_each cs delete_Card s) ->
    List.NoDup cs /\ forall p, In p cs -> is_Some (heap s !! p).
Proof.
  induction cs as [|p cs IH]; intros s Hrun.
  - split; [constructor|intros p []].
  - cbn [for_each] in Hrun. rewrite Exec_bind_run in Hrun. unfold delete_Card at 1 in Hrun.
    destruct (heap s !! p) as [c|] eqn:Hc; [|destruct Hrun; discriminate].
    apply IH in Hrun as [Hnd Hlive]. cbn [heap set_heap] in Hlive. split.
    + constructor; [|exact Hnd]. intros Hp. destruct (Hlive p Hp) as [c' Hc'].
      rewrite lookup_delete_eq in Hc'. discriminate.
    + intros q [<-|Hq]; [eauto|]. destruct (Hlive q Hq) as [c' Hc'].
      destruct (decide (p = q)) as [->|Hne]; [eauto|].
      rewrite lookup_delete_ne in Hc' by exact Hne. eauto.
Qed.

(** X19: the deleting loop of [main] is defined exactly when the vector
    holds pointers to live cards and none of them twice (a second [delete]
    of a card is undefined); it then frees exactly the cards of the vector
    and leaves every other card and every vector as they were. *)
Theorem delete_loop (cs : list nat) (s : state) :
  (is_Some (for_each cs delete_Card s)
   <-> List.NoDup cs /\ forall p, In p cs -> is_Some (heap s !! p))
  /\ (forall r s', for_each cs delete_Card s = Some (r, s') ->
        vectors s' = vectors s
        /\ (forall p, In p cs -> heap s' !! p = None)
        /\ (forall p, ~ In p cs -> heap s' !! p = heap s !! p)).
Proof.
  split; [split|].
  - apply delete_loop_Some.
  - intros [Hnd Hlive]. destruct (delete_loop_run cs s Hnd Hlive) as (s' & Hrun & _). eauto.
  - intros r s' Hrun.
    destruct (delete_loop_Some cs s) as [Hnd Hlive]; [eauto|].
    destruct (delete_loop_run cs s Hnd Hlive) as (s0 & Hrun0 & Hv & _ & _ & Hin & Hout).
    rewrite Hrun in Hrun0. injection Hrun0 as _ <-. auto.
Qed.

Lemma delete_loop_witness :
  for_each [0%nat; 0%nat] delete_Card one_card = None
  /\ is_Some (for_each [0%nat; 1%nat] delete_Card two_cards).
Proof.
  split.
  - destruct (for_each [0%nat; 0%nat] delete_Card one_card) as [r|] eqn:Hrun; [|reflexivity].
    destruct (proj1 (proj1 (delete_loop [0%nat; 0%nat] one_card))) as [Hnd _]; [eauto|].
    apply List.NoDup_cons_iff in Hnd as [Hnd _]. elim Hnd. now left.
  - apply (proj1 (delete_loop [0%nat; 1%nat] two_cards)). split.
    + repeat constructor; cbn; intuition discriminate.
    + intros p [<-|[<-|[]]]; eexists; reflexivity.
Defined.

(** ** The range filter and exact values *)

Lemma digits2_pos_lower (m : positive) : 2 ^ (Z.pos (digits2_pos m) - 1) <= Z.pos m.
Proof.
  induction m as [m IH|m IH|]; cbn [digits2_pos]; [| |reflexivity];
    rewrite Pos2Z.inj_succ;
    replace (Z.succ (Z.pos (digits2_pos m)) - 1) with (Z.succ (Z.pos (digits2_pos m) - 1)) by lia;
    rewrite Z.pow_succ_r by lia; lia.
Qed.

(** A valid finite number above the subnormal range has a full significand. *)
Lemma valid_normal (s : bool) (m : positive) (e : Z) :
  Float.valid (S754_finite s m e) = true -> -149 < e -> 2 ^ 23 <= Z.pos m.
Proof.
  unfold Float.valid, valid_binary, bounded, canonical_mantissa, fexp, emin,
    Float.emax, Float.prec.
  intros Hv He. apply andb_true_iff in Hv as [Hc _]. apply Z.eqb_eq in Hc.
  assert (Hd : Z.pos (digits2_pos m) = 24) by lia.
  pose proof (digits2_pos_lower m) as Hm. rewrite Hd in Hm. exact Hm.
Qed.

(** On valid numbers of one sign, the order on exponent and significand is
    the order of the exact values. *)
Lemma finite_order_scaled (s1 s2 : bool) (m1 m2 : positive) (e1 e2 : Z) :
  Float.valid (S754_finite s1 m1 e1) = true ->
  Float.valid (S754_finite s2 m2 e2) = true ->
  match e1 ?= e2 with Lt => Lt | Gt => Gt | Eq => Pos.compare_cont Eq m1 m2 end
  = (Z.pos m1 * 2 ^ (e1 + 149) ?= Z.pos m2 * 2 ^ (e2 + 149)).
Proof.
  intros Hv1 Hv2.
  destruct (valid_finite_bounds _ _ _ Hv1) as (Hm1 & _ & He1).
  destruct (valid_finite_bounds _ _ _ Hv2) as (Hm2 & _ & He2).
  change (2 ^ 24) with 16777216 in Hm1, Hm2.
  destruct (Z.compare_spec e1 e2) as [->|Hlt|Hgt].
  - change (Pos.compare_cont Eq m1 m2) with (Z.pos m1 ?= Z.pos m2).
    assert (HP : 0 < 2 ^ (e2 + 149)) by (apply Z.pow_pos_nonneg; lia).
    destruct (Z.compare_spec (Z.pos m1) (Z.pos m2)) as [Heq|Hl|Hg]; symmetry.
    + apply Z.compare_eq_iff. now rewrite Heq.
    + apply Z.compare_lt_iff. nia.
    + apply Z.compare_gt_iff. nia.
  - symmetry. apply Z.compare_lt_iff.
    pose proof (valid_normal _ _ _ Hv2 ltac:(lia)) as Hn. change (2 ^ 23) with 8388608 in Hn.
    replace (e2 + 149) with ((e1 + 149) + (e2 - e1)) by lia.
    rewrite (Z.pow_add_r 2 (e1 + 149) (e2 - e1)) by lia.
    assert (HP : 0 < 2 ^ (e1 + 149)) by (apply Z.pow_pos_nonneg; lia).
    assert (HK : 2 ^ 1 <= 2 ^ (e2 - e1)) by (apply Z.pow_le_mono_r; lia).
    change (2 ^ 1) with 2 in HK.
    assert (HmK : Z.pos m1 < Z.pos m2 * 2 ^ (e2 - e1)) by nia.
    rewrite (Z.mul_comm (2 ^ (e1 + 149))), Z.mul_assoc.
    apply Z.mul_lt_mono_pos_r; assumption.
  - symmetry. apply Z.compare_gt_iff.
    pose proof (valid_normal _ _ _ Hv1 ltac:(lia)) as Hn. change (2 ^ 23) with 8388608 in Hn.
    replace (e1 + 149) with ((e2 + 149) + (e1 - e2)) by lia.
    rewrite (Z.pow_add_r 2 (e2 + 149) (e1 - e2)) by lia.
    assert (HP : 0 < 2 ^ (e2 + 149)) by (apply Z.pow_pos_nonneg; lia).
    assert (HK : 2 ^ 1 <= 2 ^ (e1 - e2)) by (apply Z.pow_le_mono_r; lia).
    change (2 ^ 1) with 2 in HK.
    assert (HmK : Z.pos m2 < Z.pos m1 * 2 ^ (e1 - e2)) by nia.
    rewrite (Z.mul_comm (2 ^ (e2 + 149))), Z.mul_assoc.
    apply Z.mul_lt_mono_pos_r; assumption.
Qed.

(** The comparison of two valid finite floats is the comparison of their
    exact values. *)
Lemma SFcompare_scaled (x y : float) :
  Float.valid x = true -> Float.valid y = true ->
  Float.is_finite x = true -> Float.is_finite y = true ->
  SFcompare x y = Some (scaled x ?= scaled y).
Proof.
  destruct x as [s1|s1| |s1 m1 e1], y as [s2|s2| |s2 m2 e2];
    cbn [Float.is_finite]; try discriminate; intros Hv1 Hv2 _ _.
  - reflexivity.
  - destruct (valid_finite_bounds _ _ _ Hv2) as (_ & _ & He).
    assert (HP : 0 < 2 ^ (e2 + 149)) by (apply Z.pow_pos_nonneg; lia).
    unfold scaled. cbn [SFcompare]. f_equal. symmetry.
    destruct s2; [apply Z.compare_gt_iff|apply Z.compare_lt_iff]; nia.
  - destruct (valid_finite_bounds _ _ _ Hv1) as (_ & _ & He).
    assert (HP : 0 < 2 ^ (e1 + 149)) by (apply Z.pow_pos_nonneg; lia).
    unfold scaled. cbn [SFcompare]. f_equal. symmetry.
    destruct s1; [apply Z.compare_lt_iff|apply Z.compare_gt_iff]; nia.
  - destruct (valid_finite_bounds _ _ _ Hv1) as (_ & _ & He1).
    destruct (valid_finite_bounds _ _ _ Hv2) as (_ & _ & He2).
    assert (HP1 : 0 < 2 ^ (e1 + 149)) by (apply Z.pow_pos_nonneg; lia).
    assert (HP2 : 0 < 2 ^ (e2 + 149)) by (apply Z.pow_pos_nonneg; lia).
    unfold scaled. cbn [SFcompare]. f_equal. destruct s1, s2.
    + rewrite finite_order_opp, (finite_order_scaled _ _ _ _ _ _ Hv2 Hv1).
      change (Z.neg m1) with (- Z.pos m1). change (Z.neg m2) with (- Z.pos m2).
      rewrite !Z.mul_opp_l. symmetry. apply Z.compare_opp.
    + symmetry. apply Z.compare_lt_iff. nia.
    + symmetry. apply Z.compare_gt_iff. nia.
    + apply (finite_order_scaled _ _ _ _ _ _ Hv1 Hv2).
Qed.

(** X20: on a record with a finite cost, a range filter with finite bounds
    answers as the exact values say: it accepts the record exactly when the
    cost is above the minimum and below the maximum as numbers; the
    comparisons involve no rounding. *)
Theorem CostFilter_evaluate_exact (this : CostFilter) (card : Card) :
  Float.valid (m_cost card) = true -> Float.is_finite (m_cost card) = true ->
  Float.valid (m_min_cost this) = true -> Float.is_finite (m_min_cost this) = true ->
  Float.valid (m_max_cost this) = true -> Float.is_finite (m_max_cost this) = true ->
  (value (evaluate this card) = true
   <-> scaled (m_min_cost this) < scaled (m_cost card) < scaled (m_max_cost this)).
Proof.
  intros Hvc Hfc Hvn Hfn Hvx Hfx.
  unfold evaluate, CostFilter_evaluate, Float.gt, Float.lt, SFltb. rewrite value_ret.
  rewrite (SFcompare_scaled _ _ Hvn Hvc Hfn Hfc), (SFcompare_scaled _ _ Hvc Hvx Hfc Hfx).
  rewrite andb_true_iff.
  destruct (Z.compare_spec (scaled (m_min_cost this)) (scaled (m_cost card)));
    destruct (Z.compare_spec (scaled (m_cost card)) (scaled (m_max_cost this)));
    split; intros [? ?]; try discriminate; try lia; now split.
Qed.

Lemma CostFilter_evaluate_exact_witness :
  value (evaluate (max_cost (Float.lit 50 0) ctor) (Card_ctor 2 "Card3" (Float.lit 25 (-1)) 1 1))
  = true
  <-> scaled Float.zero < scaled (Float.lit 25 (-1)) < scaled (Float.lit 50 0).
Proof.
  refine (CostFilter_evaluate_exact (max_cost (Float.lit 50 0) ctor)
            (Card_ctor 2 "Card3" (Float.lit 25 (-1)) 1 1) _ _ _ _ _ _);
    vm_compute; reflexivity.
Defined.

(** [scaled] agrees with the value as a fraction. *)
Lemma to_frac_scaled (x : float) :
  Float.valid x = true -> Float.is_finite x = true ->
  exists n d, Float.to_frac x = Some (n, d) /\ 0 < d /\ n * 2 ^ 149 = scaled x * d.
Proof.
  destruct x as [s|s| |s m e]; cbn [Float.is_finite]; try discriminate; intros Hv _.
  - exists 0, 1. cbn. repeat split; lia.
  - destruct (valid_finite_bounds _ _ _ Hv) as (_ & _ & He).
    unfold Float.to_frac, scaled. destruct (Z.leb_spec 0 e) as [Hpos|Hneg].
    + eexists _, 1. split; [reflexivity|]. split; [lia|].
      rewrite (Z.add_comm e 149), (Z.pow_add_r 2 149 e) by lia. ring.
    + eexists _, _. split; [reflexivity|].
      assert (HP : 0 < 2 ^ (- e)) by (apply Z.pow_pos_nonneg; lia).
      split; [exact HP|].
      rewrite <- Z.mul_assoc, <- Z.pow_add_r by lia. f_equal. f_equal. lia.
Qed.
